(** * models/mri_model.py: the MRIModel training / evaluation glue

    A shallow embedding of [MRIModel] (a [pl.LightningModule]) and the
    properties of its data-loader construction, validation aggregation,
    visualisation and test export.

    Conventions of the embedding:
    - Python exceptions are values of [exn]; a call that may raise returns a
      [result].  Code that also mutates arrays or talks to the logger runs in
      the state-and-error monad [M].
    - numpy arrays live in a heap indexed by locations, so that the in-place
      update done by [_normalize] is seen by every later reader of the same
      array.
    - array elements are an abstract scalar type (class [Scalar]); the
      instance [float64] (IEEE binary64) is used for the worked examples.
    - [common.evaluate], [SliceData], [DistributedSampler], [DataLoader],
      [make_grid], the logger and [save_reconstructions] are collaborators
      outside this module: the metric functions are parameters (class
      [Evaluate]), constructors are records of their arguments, and calls with
      an external effect are recorded as events. *)

From Stdlib Require Import ZArith PrimFloat.
From stdpp Require Import base list gmap strings sorting.

Local Open Scope string_scope.
Local Open Scope list_scope.
Local Open Scope nat_scope.

(** ** Exceptions and the error monad *)

(** An exception records its class and, as the innermost frame of a Python
    traceback does, whose code executed the [raise]: a statement of this
    module, or code outside it (a builtin, numpy, the framework). *)
Inductive origin : Set :=
  | ThisModule
  | Library.

Inductive exn_class : Set :=
  | class_NotImplementedError
  | class_ValueError
  | class_IndexError.

Record exn : Set := Raised { raised_by : origin; class_of : exn_class }.

(** [NotImplementedError] is raised by the [raise] statements of the module
    (lines 37, 44, 51), its only ones.  [ValueError] and [IndexError] are
    raised inside builtins and numpy ([range], [sorted] on tuples holding
    arrays, [np.stack], [ndarray.min], indexing). *)
Abbreviation NotImplementedError := (Raised ThisModule class_NotImplementedError).
Abbreviation ValueError := (Raised Library class_ValueError).
Abbreviation IndexError := (Raised Library class_IndexError).

Inductive result (A : Type) : Type :=
  | Ok (a : A)
  | Err (e : exn).
Arguments Ok {A} a.
Arguments Err {A} e.

#[global] Instance result_ret : MRet result := λ A, Ok.
#[global] Instance result_bind : MBind result := λ A B f m,
  match m with Ok a => f a | Err e => Err e end.

(** ** Scalars and arrays *)

(** The element type of the arrays with the numpy operations the module
    applies to it.  [feqb] and [fltb] are [==] and [<]; [np_mean] is
    [np.mean] of a list of scalars. *)
Class Scalar := {
  F : Type;
  feqb : F → F → bool;
  fltb : F → F → bool;
  fsub : F → F → F;
  fdiv : F → F → F;
  fabs : F → F;
  fmin : F → F → F;
  fmax : F → F → F;
  np_mean : list F → F;
}.

Section arrays.
Context `{Scalar}.

(** A two-dimensional array (one slice): its shape and its elements in
    row-major order.  [image[np.newaxis]] adds a unit axis without touching
    the elements, so a [1 x H x W] array is represented by the same record.
    Arrays of one more dimension (a batch, a stacked volume, the argument of
    [make_grid]) are lists of images. *)
Record image := Image { img_h : nat; img_w : nat; img_data : list F }.

Definition shape (a : image) : nat * nat := (img_h a, img_w a).

Definition map_image (f : F → F) (a : image) : image :=
  Image (img_h a) (img_w a) (f <$> img_data a).

(** [a.min()] and [a.max()]: numpy refuses to reduce an array without
    elements. *)
Definition arr_min (a : image) : result F :=
  match img_data a with
  | [] => Err ValueError
  | x :: xs => Ok (foldl fmin x xs)
  end.

Definition arr_max (a : image) : result F :=
  match img_data a with
  | [] => Err ValueError
  | x :: xs => Ok (foldl fmax x xs)
  end.

(** [arr[i]] on the first axis. *)
Definition getitem (arr : list image) (i : nat) : result image :=
  match arr !! i with
  | Some a => Ok a
  | None => Err IndexError
  end.

(** [np.stack(arrays)]: at least one array, all of one shape. *)
Definition np_stack (arrays : list image) : result (list image) :=
  match arrays with
  | [] => Err ValueError
  | a :: rest =>
      if forallb (λ b, bool_decide (shape b = shape a)) rest
      then Ok arrays else Err ValueError
  end.

(** Broadcasting of one axis: equal extents, or one of them is 1. *)
Definition bdim (m n : nat) : result nat :=
  if decide (m = n) then Ok m
  else if decide (m = 1) then Ok n
  else if decide (n = 1) then Ok m
  else Err ValueError.

Definition pixel (a : image) (i j : nat) : option F :=
  img_data a !! ((if decide (img_h a = 1) then 0 else i) * img_w a
                 + (if decide (img_w a = 1) then 0 else j)).

Definition broadcast2 (f : F → F → F) (a b : image) : result image :=
  h ← bdim (img_h a) (img_h b);
  w ← bdim (img_w a) (img_w b);
  mret (Image h w
          (omap (λ ij : nat * nat,
                   x ← pixel a ij.1 ij.2; y ← pixel b ij.1 ij.2; Some (f x y))
                (i ← seq 0 h; j ← seq 0 w; [(i, j)]))).

(** [np.abs(targets - outputs)] on two stacks. *)
Definition np_abs_sub (targets outputs : list image) : result (list image) :=
  mapM (λ p : image * image, broadcast2 (λ x y, fabs (fsub x y)) p.1 p.2)
       (zip targets outputs).

(** ** [sorted] on [(slice, array)] tuples *)

(** [bool(a == b)] and [bool(a < b)] for arrays: numpy gives a truth value
    only to an array with exactly one element (for an array without elements
    old releases answer [False] with a deprecation warning, current ones
    raise; the model raises). *)
Definition truth_cmp (cmp : F → F → bool) (a b : image) : result bool :=
  match img_data a, img_data b with
  | [x], [y] => Ok (cmp x y)
  | _, _ => Err ValueError
  end.

(** Python's [<] on 2-tuples: the first components decide unless they are
    equal; only then are the second components compared, first with [==]. *)
Definition tuple_lt (x y : Z * image) : result bool :=
  if decide (x.1 = y.1) then
    truth_cmp feqb x.2 y.2 ≫= λ same : bool,
    if same then Ok false else truth_cmp fltb x.2 y.2
  else Ok (bool_decide (x.1 < y.1)%Z).

(** [sorted] is stable and uses [<] only; an exception raised by a
    comparison propagates.  It is modelled as a stable insertion sort. *)
Fixpoint insert_sorted (x : Z * image) (l : list (Z * image))
  : result (list (Z * image)) :=
  match l with
  | [] => Ok [x]
  | y :: l' =>
      tuple_lt x y ≫= λ lt : bool,
      if lt then Ok (x :: y :: l')
      else insert_sorted x l' ≫= λ r, Ok (y :: r)
  end.

Definition sorted (l : list (Z * image)) : result (list (Z * image)) :=
  foldl (λ acc x, s ← acc; insert_sorted x s) (Ok []) l.

End arrays.

(** [common.evaluate]: the three reconstruction metrics, each taking the
    target volume and the output volume. *)
Class Evaluate `{Scalar} := {
  nmse : list image → list image → F;
  ssim : list image → list image → F;
  psnr : list image → list image → F;
}.

(** ** Paths and hyper-parameters *)

(** [pathlib] paths: a root and the segments joined to it with [/]. *)
Inductive path : Set :=
  | Path (root : string)
  | truediv (p : path) (segment : string).

(** The fields of [hparams] the module reads. *)
Module Hparams.
Record t := {
  data_path : path;
  challenge : string;
  sample_rate : float;
  batch_size : Z;
  exp_dir : path;
  exp : string;
}.
End Hparams.

(** ** State: the array heap and the trace of external calls *)

Abbreviation loc := nat.

Section state.
Context `{Evaluate}.

(** [torchvision.utils.make_grid(torch.Tensor(image), nrow, pad_value)]. *)
Record grid := make_grid { grid_tensor : list image; nrow : nat; pad_value : Z }.

Inductive event :=
  | add_image (tag : string) (g : grid)
  | print (metrics : list (string * F))
  | save_reconstructions (reconstructions : list (string * list image))
                         (out_dir : path).

(** A location holds a batch array (its images along the first axis); a
    location that is not allocated reads as an array without images. *)
Record state := State {
  heap : gmap loc (list image);
  trace : list event;
}.

Definition M (A : Type) : Type := state → state * result A.

#[global] Instance M_ret : MRet M := λ A a s, (s, Ok a).
#[global] Instance M_bind : MBind M := λ A B f m s,
  match m s with
  | (s', Ok a) => f a s'
  | (s', Err e) => (s', Err e)
  end.

Definition lift {A} (r : result A) : M A := λ s, (s, r).
Definition get_heap : M (gmap loc (list image)) := λ s, (s, Ok (heap s)).
Definition emit (e : event) : M unit := λ s,
  (State (heap s) (trace s ++ [e]), Ok ()).

(** A view [arr[i]] onto the array at [view_base]: it shares the buffer. *)
Record view := View { view_base : loc; view_index : nat }.

Definition getitem_view (l : loc) (i : nat) : M view := λ s,
  (s, if decide (i < length (heap s !!! l)) then Ok (View l i)
      else Err IndexError).

Definition view_read (v : view) : M image := λ s,
  (s, getitem (heap s !!! view_base v) (view_index v)).

Definition view_write (v : view) (a : image) : M unit := λ s,
  (State (<[view_base v := <[view_index v := a]> (heap s !!! view_base v)]>
            (heap s))
         (trace s), Ok ()).

(** ** Logged batches *)

(** One entry of [val_logs] / [test_logs]: the dictionary a validation or
    test step returns for a batch.  [output] and [target] refer to numpy
    arrays; [test_end] reads [fname], [slice] and [output] only. *)
Record log := {
  fname : list string;
  slice : list Z;
  output : loc;
  target : loc;
  val_loss : F;
}.

(** ** [defaultdict(list)] keyed by file name, in insertion order *)

Definition ddict : Type := list (string * list (Z * image)).

Fixpoint dd_append (d : ddict) (k : string) (v : Z * image) : ddict :=
  match d with
  | [] => [(k, [v])]
  | (k', vs) :: d' =>
      if decide (k' = k) then (k', vs ++ [v]) :: d'
      else (k', vs) :: dd_append d' k v
  end.

Fixpoint dd_get (d : ddict) (k : string) : list (Z * image) :=
  match d with
  | [] => []
  | (k', vs) :: d' => if decide (k' = k) then vs else dd_get d' k
  end.

(** [np.stack([a for _, a in sorted(entries)])] (lines 68, 69 and 109). *)
Definition stack_sorted (entries : list (Z * image)) : result (list image) :=
  s ← sorted entries; np_stack (s.*2).

(** ** [_evaluate] *)

(** The inner loop of lines 63-65 from index [i] on. *)
Fixpoint collect_batch (h : gmap loc (list image)) (lg : log) (i : nat)
    (items : list (string * Z)) (acc : ddict * ddict) : result (ddict * ddict) :=
  match items with
  | [] => Ok acc
  | (name, sl) :: items' =>
      out ← getitem (h !!! output lg) i;
      tgt ← getitem (h !!! target lg) i;
      collect_batch h lg (S i) items'
        (dd_append acc.1 name (sl, out), dd_append acc.2 name (sl, tgt))
  end.

(** The loop of lines 61-65: losses, outputs and targets. *)
Fixpoint collect (h : gmap loc (list image)) (val_logs : list log)
    (acc : list F * ddict * ddict) : result (list F * ddict * ddict) :=
  match val_logs with
  | [] => Ok acc
  | lg :: rest =>
      let '(losses, outputs, targets) := acc in
      collect_batch h lg 0 (zip (fname lg) (slice lg)) (outputs, targets)
        ≫= λ '(outputs', targets'),
      collect h rest (losses ++ [val_loss lg], outputs', targets')
  end.

(** The body of the loop of lines 67-72 for one file name: the stacked
    volumes and the three metric values. *)
Definition volumes (outputs targets : ddict) (name : string)
  : result (list image * list image) :=
  out ← stack_sorted (dd_get outputs name);
  tgt ← stack_sorted (dd_get targets name);
  mret (out, tgt).

Definition file_metrics (outputs targets : ddict) (name : string)
  : result (F * F * F) :=
  volumes outputs targets name ≫= λ '(out, tgt),
  mret (nmse tgt out, ssim tgt out, psnr tgt out).

(** Line 73: the mean of every list of [metrics], in the order of line 66. *)
Definition mean_metrics (losses : list F) (ms : list (F * F * F))
  : list (string * F) :=
  [("val_loss", np_mean losses);
   ("nmse", np_mean (ms.*1.*1));
   ("ssim", np_mean (ms.*1.*2));
   ("psnr", np_mean (ms.*2))].

(** Values stored in the returned dictionary. *)
Inductive value :=
  | VNum (x : F)
  | VDict (d : list (string * F)).

(** Line 75: [dict(log=metrics, **metrics)]. *)
Definition with_log (metrics : list (string * F)) : list (string * value) :=
  ("log", VDict metrics) :: (prod_map id VNum <$> metrics).

Definition _evaluate (val_logs : list log) : M (list (string * value)) :=
  h ← get_heap;
  lift (collect h val_logs ([], [], [])) ≫= λ '(losses, outputs, targets),
  ms ← lift (mapM (file_metrics outputs targets) (outputs.*1));
  let metrics := mean_metrics losses ms in
  emit (print metrics);;
  mret (with_log metrics).

(** ** [_visualize] *)

Definition _normalize (im : view) : M image :=
  a ← view_read im;
  lo ← lift (arr_min a);
  view_write im (map_image (λ x, fsub x lo) a);;
  a' ← view_read im;
  hi ← lift (arr_max a');
  mret (map_image (λ x, fdiv x hi) a').

Definition save_image (im : list image) (tag : string) : M unit :=
  emit (add_image tag (make_grid im 4 1)).

(** [range(start, stop, step)] for a step that is not negative. *)
Definition range (start stop step : nat) : result (list nat) :=
  if decide (step = 0) then Err ValueError
  else Ok ((λ k, start + k * step) <$> seq 0 ((stop - start + step - 1) / step)).

(** The body of the loop of lines 90-92. *)
Definition visualize_step (val_logs : list log) (i : nat) : M (image * image) :=
  lg ← lift (match val_logs !! i with
             | Some lg => Ok lg
             | None => Err IndexError
             end);
  o ← getitem_view (output lg) 0 ≫= _normalize;
  t ← getitem_view (target lg) 0 ≫= _normalize;
  mret (o, t).

Definition _visualize (val_logs : list log) : M unit :=
  let num_logs := length val_logs in
  let step := (num_logs + 15) / 16 in
  idx ← lift (range 0 num_logs step);
  ots ← mapM (visualize_step val_logs) idx;
  outputs ← lift (np_stack (ots.*1));
  targets ← lift (np_stack (ots.*2));
  save_image targets "Target";;
  save_image outputs "Reconstruction";;
  err ← lift (np_abs_sub targets outputs);
  save_image err "Error".

(** ** [validation_end] and [test_end] *)

Definition validation_end (val_logs : list log) : M (list (string * value)) :=
  _visualize val_logs;;
  _evaluate val_logs.

(** The loop of lines 105-107. *)
Fixpoint collect_test_batch (h : gmap loc (list image)) (lg : log) (i : nat)
    (items : list (string * Z)) (outputs : ddict) : result ddict :=
  match items with
  | [] => Ok outputs
  | (name, sl) :: items' =>
      out ← getitem (h !!! output lg) i;
      collect_test_batch h lg (S i) items' (dd_append outputs name (sl, out))
  end.

Fixpoint collect_test (h : gmap loc (list image)) (test_logs : list log)
    (outputs : ddict) : result ddict :=
  match test_logs with
  | [] => Ok outputs
  | lg :: rest =>
      outputs' ← collect_test_batch h lg 0 (zip (fname lg) (slice lg)) outputs;
      collect_test h rest outputs'
  end.

Definition test_end (hparams : Hparams.t) (test_logs : list log)
  : M (list (string * value)) :=
  h ← get_heap;
  outputs ← lift (collect_test h test_logs []);
  stacked ← lift (mapM (λ name, v ← stack_sorted (dd_get outputs name);
                                mret (name, v)) (outputs.*1));
  emit (save_reconstructions stacked
          (truediv (truediv (Hparams.exp_dir hparams) (Hparams.exp hparams))
                   "reconstructions"));;
  mret [].

End state.

(** ** Data loaders *)

(** The framework objects are records of their constructor arguments: what
    [_create_data_loader] passes to [SliceData], [DistributedSampler] and
    [DataLoader] is modelled, what these constructors do with it, errors
    raised inside them included, is not. *)
Module SliceData.
Record t (T : Type) := new {
  root : path;
  transform : T;
  sample_rate : float;
  challenge : string;
}.
Arguments new {T}.
Arguments root {T}.
Arguments transform {T}.
Arguments sample_rate {T}.
Arguments challenge {T}.
End SliceData.

Module DistributedSampler.
Record t (T : Type) := new { dataset : SliceData.t T }.
Arguments new {T}.
Arguments dataset {T}.
End DistributedSampler.

Module DataLoader.
Record t (T : Type) := new {
  dataset : SliceData.t T;
  batch_size : Z;
  num_workers : Z;
  pin_memory : bool;
  sampler : DistributedSampler.t T;
}.
Arguments new {T}.
Arguments dataset {T}.
Arguments batch_size {T}.
Arguments num_workers {T}.
Arguments pin_memory {T}.
Arguments sampler {T}.
End DataLoader.

Section loaders.
(** The type of the transforms the [*_data_transform] hooks return. *)
Context {T : Type}.

(** An [MRIModel] instance: its hyper-parameters and the three hooks a
    subclass overrides (the outcome of calling the hook on the instance). *)
Record MRIModel := {
  hparams : Hparams.t;
  train_data_transform : result T;
  val_data_transform : result T;
  test_data_transform : result T;
}.

(** An instance of the base class itself: the hooks of lines 36-51. *)
Definition base_model (hp : Hparams.t) : MRIModel := {|
  hparams := hp;
  train_data_transform := Err NotImplementedError;
  val_data_transform := Err NotImplementedError;
  test_data_transform := Err NotImplementedError;
|}.

(** Truth value of an optional float: [None] and zero are falsy. *)
Definition truthy (x : option float) : bool :=
  match x with
  | None => false
  | Some v => negb (PrimFloat.eqb v 0)
  end.

(** [x or y]. *)
Definition py_or (x : option float) (y : float) : float :=
  match x with
  | Some v => if truthy x then v else y
  | None => y
  end.

Definition _create_data_loader (self : MRIModel) (data_transform : T)
    (data_partition : string) (sample_rate : option float) : DataLoader.t T :=
  let sample_rate := py_or sample_rate (Hparams.sample_rate (hparams self)) in
  let dataset :=
    SliceData.new
      (truediv (Hparams.data_path (hparams self))
               (Hparams.challenge (hparams self) +:+ "_" +:+ data_partition))
      data_transform sample_rate (Hparams.challenge (hparams self)) in
  let sampler := DistributedSampler.new dataset in
  DataLoader.new dataset (Hparams.batch_size (hparams self)) 8 true sampler.

(** The three loader methods.  [@pl.data_loader] only defers and caches the
    call; what the method computes is its body. *)
Definition train_dataloader (self : MRIModel) : result (DataLoader.t T) :=
  tr ← train_data_transform self;
  mret (_create_data_loader self tr "train" None).

Definition val_dataloader (self : MRIModel) : result (DataLoader.t T) :=
  tr ← val_data_transform self;
  mret (_create_data_loader self tr "val" None).

Definition test_dataloader (self : MRIModel) : result (DataLoader.t T) :=
  tr ← test_data_transform self;
  mret (_create_data_loader self tr "test" (Some 1%float)).

End loaders.
Arguments MRIModel T : clear implicits.

(** ** A concrete scalar type for the worked examples *)

(** IEEE binary64.  [np.minimum] / [np.maximum] propagate NaN; [np.mean]
    sums from the first element on and divides by the count. *)
Definition float_min (x y : float) : float :=
  if is_nan x then x else if is_nan y then y
  else if PrimFloat.ltb y x then y else x.

Definition float_max (x y : float) : float :=
  if is_nan x then x else if is_nan y then y
  else if PrimFloat.ltb x y then y else x.

Definition float_count {A} (l : list A) : float :=
  foldl (λ n _, n + 1)%float 0%float l.

Definition float_mean (l : list float) : float :=
  match l with
  | [] => (0 / 0)%float
  | x :: xs => (foldl PrimFloat.add x xs / float_count l)%float
  end.

#[global] Instance float64 : Scalar := {|
  F := float;
  feqb := PrimFloat.eqb;
  fltb := PrimFloat.ltb;
  fsub := PrimFloat.sub;
  fdiv := PrimFloat.div;
  fabs := PrimFloat.abs;
  fmin := float_min;
  fmax := float_max;
  np_mean := float_mean;
|}.


(** * Vocabulary of the statements *)

Section vocabulary.
Context `{Evaluate}.

(** Ascending slice index. *)
Definition key_lt (x y : Z * image) : Prop := (x.1 < y.1)%Z.

Definition same_shape (l : list image) : Prop :=
  ∀ a b, a ∈ l → b ∈ l → shape a = shape b.

(** The [(file name, slice index)] pairs a log list mentions, in order. *)
Definition logged (logs : list log) : list (string * Z) :=
  lg ← logs; zip (fname lg) (slice lg).

(** The pairs of one batch, each with its image in the array [arr]. *)
Definition label (items : list (string * Z)) (arr : list image)
  : list (string * (Z * image)) :=
  zip_with (λ p a, (p.1, (p.2, a))) items arr.

Definition entries (h : gmap loc (list image)) (field : log → loc)
    (logs : list log) : list (string * (Z * image)) :=
  lg ← logs; label (zip (fname lg) (slice lg)) (h !!! field lg).

(** The [(slice, image)] entries of one file, in logging order. *)
Definition file_entries (h : gmap loc (list image)) (field : log → loc)
    (logs : list log) (name : string) : list (Z * image) :=
  (filter (λ e, e.1 = name) (entries h field logs)).*2.

(** Every logged pair has an image in the batch array. *)
Definition in_bounds (h : gmap loc (list image)) (field : log → loc)
    (logs : list log) : Prop :=
  Forall (λ lg, length (zip (fname lg) (slice lg)) ≤ length (h !!! field lg))
         logs.

Definition dd_extend (d : ddict) (es : list (string * (Z * image))) : ddict :=
  foldl (λ d e, dd_append d e.1 e.2) d es.

Definition keys_extend (ks names : list string) : list string :=
  foldl (λ ks k, if decide (k ∈ ks) then ks else ks ++ [k]) ks names.

(** Conditions under which gathering and stacking the array [field] of the
    logs does not raise: an image for every logged pair, and one shape per
    file. *)
Record aggregable (h : gmap loc (list image)) (field : log → loc)
    (logs : list log) : Prop := {
  agg_bounds : in_bounds h field logs;
  agg_shape :
    Forall (λ e1, Forall (λ e2, e1.1 = e2.1 → shape e1.2.2 = shape e2.2.2)
                         (entries h field logs))
           (entries h field logs);
}.

(** [r] is the ascending rearrangement of the entries of file [name]. *)
Definition sorted_entries (h : gmap loc (list image)) (field : log → loc)
    (logs : list log) (name : string) (r : list (Z * image)) : Prop :=
  r ≡ₚ file_entries h field logs name ∧ StronglySorted key_lt r.

(** [v] is the pair of volumes of file [name]: its output slices and its
    target slices, each stacked in ascending slice order. *)
Definition file_volumes (h : gmap loc (list image)) (logs : list log)
    (name : string) (v : list image * list image) : Prop :=
  ∃ so st, sorted_entries h output logs name so
           ∧ sorted_entries h target logs name st
           ∧ v = (so.*2, st.*2).

(** The metric values of one file from its (output, target) volumes. *)
Definition volume_metrics (v : list image * list image) : F * F * F :=
  (nmse v.2 v.1, ssim v.2 v.1, psnr v.2 v.1).

Definition reconstructions_dir (hparams : Hparams.t) : path :=
  truediv (truediv (Hparams.exp_dir hparams) (Hparams.exp hparams))
          "reconstructions".

(** What [_evaluate] does with the logs: [outputs] and [targets] get one
    entry per file name, holding the entries of that file; for every file the
    two volumes are stacked in ascending slice order; and the metrics that
    are printed and returned are the means over these volumes. *)
Definition aggregates (s : state) (logs : list log) : Prop :=
  ∃ outputs targets vols,
    collect (heap s) logs ([], [], [])
    = Ok (val_loss <$> logs, outputs, targets)
    ∧ NoDup outputs.*1
    ∧ (∀ name, name ∈ outputs.*1 ↔ name ∈ (logged logs).*1)
    ∧ targets.*1 = outputs.*1
    ∧ (∀ name, dd_get outputs name = file_entries (heap s) output logs name)
    ∧ (∀ name, dd_get targets name = file_entries (heap s) target logs name)
    ∧ mapM (volumes outputs targets) outputs.*1 = Ok vols
    ∧ Forall2 (file_volumes (heap s) logs) outputs.*1 vols
    ∧ let metrics :=
        mean_metrics (val_loss <$> logs) (volume_metrics <$> vols) in
      _evaluate logs s
      = (State (heap s) (trace s ++ [print metrics]), Ok (with_log metrics)).

(** The dictionary [test_end] hands to [save_reconstructions]: one volume
    per file name, stacked in ascending slice order. *)
Definition test_volumes (h : gmap loc (list image)) (logs : list log)
    (stacked : list (string * list image)) : Prop :=
  ∃ outputs,
    collect_test h logs [] = Ok outputs
    ∧ NoDup outputs.*1
    ∧ (∀ name, name ∈ outputs.*1 ↔ name ∈ (logged logs).*1)
    ∧ (∀ name, dd_get outputs name = file_entries h output logs name)
    ∧ mapM (λ name, v ← stack_sorted (dd_get outputs name); mret (name, v))
           outputs.*1 = Ok stacked
    ∧ Forall2 (λ name nv, ∃ so, sorted_entries h output logs name so
                                 ∧ nv = (name, so.*2))
              outputs.*1 stacked.

(** [test_end] saves the volumes of the logs and returns [dict()]. *)
Definition exports (hparams : Hparams.t) (s : state) (logs : list log) : Prop :=
  ∃ stacked,
    test_volumes (heap s) logs stacked
    ∧ test_end hparams logs s
      = (State (heap s)
           (trace s ++ [save_reconstructions stacked
                          (reconstructions_dir hparams)]),
         Ok []).

End vocabulary.

(** ** Vocabulary for [_visualize] *)

Section visualisation.
Context `{Evaluate}.

(** The stride of line 88 and the indices [range(0, n, stride n)] visits. *)
Definition stride (n : nat) : nat := (n + 15) / 16.

Definition sampled (n : nat) : list nat :=
  (λ k, k * stride n) <$> seq 0 ((n + stride n - 1) / stride n).

(** The arrays [_normalize] is applied to, in the order of the calls. *)
Definition arrays_at (logs : list log) (idx : list nat) : list loc :=
  i ← idx;
  match logs !! i with
  | Some lg => [output lg; target lg]
  | None => []
  end.

Definition sampled_arrays (logs : list log) : list loc :=
  arrays_at logs (sampled (length logs)).

(** An image after [image -= image.min()]. *)
Definition shifted (a : image) : image :=
  match arr_min a with
  | Ok lo => map_image (λ x, fsub x lo) a
  | Err _ => a
  end.

(** The heap after the first image of the array at [l] was shifted. *)
Definition shift_first (h : gmap loc (list image)) (l : loc)
  : gmap loc (list image) :=
  match h !!! l with
  | a :: rest => <[l := shifted a :: rest]> h
  | [] => h
  end.

(** The first image of the array at [l] exists, has an element, and its
    shape satisfies [φ]. *)
Definition first_image (φ : nat * nat → Prop) (h : gmap loc (list image))
    (l : loc) : Prop :=
  match h !!! l with
  | a :: _ => 0 < length (img_data a) ∧ φ (shape a)
  | [] => False
  end.

Definition is_grid (n : nat) (ev : event) : Prop :=
  ∃ tag g, ev = add_image tag g
           ∧ tag ∈ ["Target"; "Reconstruction"; "Error"]
           ∧ length (grid_tensor g) = n.

(** A batch array that [validation_end] can use: at least one image, an
    image for every logged pair, and every image of shape [sh] with at least
    one element. *)
Definition batch_ok (h : gmap loc (list image)) (sh : nat * nat) (lg : log)
    (l : loc) : Prop :=
  length (zip (fname lg) (slice lg)) ≤ length (h !!! l)
  ∧ 0 < length (h !!! l)
  ∧ Forall (λ a, shape a = sh ∧ 0 < length (img_data a)) (h !!! l).

Record well_formed (h : gmap loc (list image)) (logs : list log)
    (sh : nat * nat) : Prop := {
  wf_distinct : NoDup (logged logs);
  wf_batches :
    Forall (λ lg, batch_ok h sh lg (output lg) ∧ batch_ok h sh lg (target lg))
           logs;
}.

(** What [validation_end] returns: the means of the losses and of the
    metric values of the volumes, one volume pair per file name, also under
    the key 'log'. *)
Definition reports (s : state) (logs : list log) : Prop :=
  ∃ s1 names vols,
    _visualize logs s = (s1, Ok ())
    ∧ NoDup names
    ∧ (∀ name, name ∈ names ↔ name ∈ (logged logs).*1)
    ∧ Forall2 (file_volumes (heap s1) logs) names vols
    ∧ let val_loss_mean := np_mean (val_loss <$> logs) in
      let nmse_mean := np_mean ((λ v, nmse v.2 v.1) <$> vols) in
      let ssim_mean := np_mean ((λ v, ssim v.2 v.1) <$> vols) in
      let psnr_mean := np_mean ((λ v, psnr v.2 v.1) <$> vols) in
      let metrics := [("val_loss", val_loss_mean); ("nmse", nmse_mean);
                      ("ssim", ssim_mean); ("psnr", psnr_mean)] in
      validation_end logs s
      = (State (heap s1) (trace s1 ++ [print metrics]),
         Ok [("log", VDict metrics);
             ("val_loss", VNum val_loss_mean); ("nmse", VNum nmse_mean);
             ("ssim", VNum ssim_mean); ("psnr", VNum psnr_mean)]).

(** An exception raised by a [raise] statement of the module. *)
Definition own_error (e : exn) : Prop := raised_by e = ThisModule.

(** A computation whose exceptions are all raised inside builtins and
    libraries, as a [ValueError] or an [IndexError]. *)
Definition lib_errors {A} (r : result A) : Prop :=
  ∀ e, r = Err e → e = ValueError ∨ e = IndexError.

End visualisation.

(** * Data of the worked examples *)

(** Stand-ins for the metric functions of [common.evaluate] (which this
    module only calls): a normalised squared error, the inner product, and
    the largest target value. *)
Definition flat (v : list (@image float64)) : list float := v ≫= img_data.

Definition sum_with (f : float → float → float) (t o : list (@image float64))
  : float :=
  foldl PrimFloat.add 0%float (zip_with f (flat t) (flat o)).

#[global] Instance example_metrics : @Evaluate float64 := {|
  nmse t o := (sum_with (λ x y, (x - y) * (x - y)) t o / sum_with PrimFloat.mul t t)%float;
  ssim t o := sum_with PrimFloat.mul t o;
  psnr t o := foldl float_max 0%float (flat t);
|}.

Definition row (x y : float) : @image float64 := Image 1 2 [x; y].

(** Two batches of two slices: arrays 0 and 2 hold the outputs, arrays 1
    and 3 the targets. *)
Definition example_heap : gmap loc (list (@image float64)) :=
  <[0 := [row 1 3; row 2 4]]>
  (<[1 := [row 1 2; row 5 6]]>
  (<[2 := [row 0 1; row 3 5]]>
  (<[3 := [row 2 3; row 1 4]]> ∅))).

Definition example_state : state := State example_heap [].

Definition first_batch : log :=
  {| fname := ["a"; "a"]; slice := [1; 0]%Z; output := 0; target := 1;
     val_loss := 0.5%float |}.

Definition second_batch : log :=
  {| fname := ["b"; "a"]; slice := [0; 2]%Z; output := 2; target := 3;
     val_loss := 1.5%float |}.

Definition example_logs : list log := [first_batch; second_batch].

(** One batch in which slice 0 of file [a] occurs twice. *)
Definition duplicate_logs : list log := [
  {| fname := ["a"; "a"]; slice := [0; 0]%Z; output := 0; target := 1;
     val_loss := 0.5%float |}
].

Definition example_hparams : Hparams.t := {|
  Hparams.data_path := Path "data";
  Hparams.challenge := "singlecoil";
  Hparams.sample_rate := 0.25%float;
  Hparams.batch_size := 2;
  Hparams.exp_dir := Path "experiments";
  Hparams.exp := "unet";
|}.

(** A subclass instance whose hooks return a transform, and an instance of
    the base class. *)
Definition example_model : MRIModel () := {|
  hparams := example_hparams;
  train_data_transform := Ok ();
  val_data_transform := Ok ();
  test_data_transform := Ok ();
|}.

Definition example_base_model : MRIModel () := base_model example_hparams.

(** * Vocabulary of the further properties *)

Section further_vocabulary.
Context `{Evaluate}.

(** Non-decreasing slice index. *)
Definition key_le (x y : Z * image) : Prop := (x.1 ≤ y.1)%Z.

(** An entry whose image has more than one element, as every real slice. *)
Definition multi_element (e : Z * image) : Prop := 1 < length (img_data e.2).

(** [h'] differs from [h] at most in the first image of the arrays in [L],
    and every array keeps its number of images and their shapes. *)
Definition gentle (L : list loc) (h h' : gmap loc (list image)) : Prop :=
  ∀ l, shape <$> (h' !!! l) = shape <$> (h !!! l)
       ∧ drop 1 (h' !!! l) = drop 1 (h !!! l)
       ∧ (l ∉ L → h' !!! l = h !!! l).

(** The two arrays of every log, in order. *)
Definition all_arrays (logs : list log) : list loc :=
  lg ← logs; [output lg; target lg].

End further_vocabulary.

(** Three entries of one file, out of order; and the logs in the other
    order. *)
Definition example_entries : list (Z * @image float64) :=
  [(1%Z, row 1 3); (0%Z, row 2 4); (2%Z, row 3 5)].

Definition swapped_logs : list log := [second_batch; first_batch].

(** ** Vocabulary for the order of [validation_end] *)

Section order_vocabulary.
Context `{Evaluate}.

(** The image a call of [_normalize] on the array at [l] returned, read off
    the heap the call left: the stored first image divided by its maximum. *)
Definition normalised_first (h : gmap loc (list image)) (l : loc)
  : option image :=
  match h !!! l with
  | b :: _ =>
      match arr_max b with
      | Ok hi => Some (map_image (λ x, fdiv x hi) b)
      | Err _ => None
      end
  | [] => None
  end.

(** The pairs [(output, target)] of normalised images of the visited logs. *)
Definition normalised_pairs (h : gmap loc (list image)) (logs : list log)
    (idx : list nat) (ots : list (image * image)) : Prop :=
  Forall2 (λ i ot, ∃ lg, logs !! i = Some lg
                         ∧ normalised_first h (output lg) = Some ot.1
                         ∧ normalised_first h (target lg) = Some ot.2)
          idx ots.

(** [validation_end] ran to the end: first [_visualize] logged the grids
    'Target', 'Reconstruction' and 'Error' of the normalised first images of
    the visited logs, then [_evaluate] computed the means of the losses and
    of the metric values of the volumes on the heap [_visualize] left,
    printed them, and [validation_end] returned them. *)
Definition visualizes_then_evaluates (s : state) (logs : list log) : Prop :=
  ∃ h1 ots err names vols,
    let grids := [add_image "Target" (make_grid ots.*2 4 1);
                  add_image "Reconstruction" (make_grid ots.*1 4 1);
                  add_image "Error" (make_grid err 4 1)] in
    let metrics := [("val_loss", np_mean (val_loss <$> logs));
                    ("nmse", np_mean ((λ v, nmse v.2 v.1) <$> vols));
                    ("ssim", np_mean ((λ v, ssim v.2 v.1) <$> vols));
                    ("psnr", np_mean ((λ v, psnr v.2 v.1) <$> vols))] in
    _visualize logs s = (State h1 (trace s ++ grids), Ok ())
    ∧ length ots = length (sampled (length logs))
    ∧ (NoDup (sampled_arrays logs) →
       normalised_pairs h1 logs (sampled (length logs)) ots)
    ∧ np_abs_sub ots.*2 ots.*1 = Ok err
    ∧ NoDup names
    ∧ (∀ name, name ∈ names ↔ name ∈ (logged logs).*1)
    ∧ Forall2 (file_volumes h1 logs) names vols
    ∧ _evaluate logs (State h1 (trace s ++ grids))
      = (State h1 ((trace s ++ grids) ++ [print metrics]),
         Ok (with_log metrics))
    ∧ validation_end logs s
      = (State h1 ((trace s ++ grids) ++ [print metrics]),
         Ok (with_log metrics)).

End order_vocabulary.
(** * Properties *)

(** ** The error monad *)

Lemma mapM_result_length {A B} (f : A → result B) (l : list A) (k : list B) :
  mapM f l = Ok k → length k = length l.
Proof.
  revert k. induction l as [|x l IH]; intros k; simpl.
  - by intros [= <-].
  - destruct (f x) as [y|]; [simpl|done].
    destruct (mapM f l) as [k'|]; [simpl|done].
    intros [= <-]. simpl. f_equal. by apply IH.
Qed.

(** ** Sorting *)

Section sorting.
Context `{Scalar}.

#[local] Instance key_lt_trans : Transitive key_lt.
Proof. unfold key_lt. intros x y z. lia. Qed.

Lemma tuple_lt_distinct (x y : Z * image) :
  x.1 ≠ y.1 → tuple_lt x y = Ok (bool_decide (x.1 < y.1)%Z).
Proof. intros Hne. unfold tuple_lt. by rewrite decide_False. Qed.

(** A comparison of two tuples with the same slice index asks numpy for the
    truth value of an array comparison, which images of more than one
    element do not have. *)
Lemma tuple_lt_tie (x y : Z * image) :
  x.1 = y.1 → 1 < length (img_data x.2) → tuple_lt x y = Err ValueError.
Proof.
  intros Heq Hlen. unfold tuple_lt, truth_cmp. rewrite decide_True by done.
  destruct (img_data x.2) as [|? [|? ?]]; simpl in *; try lia; done.
Qed.

Lemma insert_sorted_fresh (x : Z * image) (l : list (Z * image)) :
  Forall (λ y, y.1 ≠ x.1) l → StronglySorted key_lt l →
  ∃ r, insert_sorted x l = Ok r ∧ r ≡ₚ x :: l ∧ StronglySorted key_lt r.
Proof.
  induction l as [|y l IH]; intros Hne Hs.
  - exists [x]. repeat split; [done|]. repeat constructor.
  - apply Forall_cons in Hne as [Hy Hne].
    apply StronglySorted_cons in Hs as [Hyl Hs].
    simpl. rewrite tuple_lt_distinct by done. simpl.
    case_bool_decide as Hlt.
    + exists (x :: y :: l). repeat split; [done|].
      apply StronglySorted_cons. split.
      * constructor; [done|].
        eapply Forall_impl; [exact Hyl|]. intros z Hz. unfold key_lt in *. lia.
      * by apply StronglySorted_cons.
    + destruct (IH Hne Hs) as (r & -> & Hperm & Hr). simpl.
      exists (y :: r). repeat split.
      * rewrite Hperm. apply perm_swap.
      * apply StronglySorted_cons. split; [|done].
        rewrite Hperm. constructor; [unfold key_lt; lia|done].
Qed.

Lemma sorted_from (acc l : list (Z * image)) :
  NoDup ((acc ++ l).*1) → StronglySorted key_lt acc →
  ∃ r, foldl (λ a x, s ← a; insert_sorted x s) (Ok acc) l = Ok r
       ∧ r ≡ₚ acc ++ l ∧ StronglySorted key_lt r.
Proof.
  revert acc. induction l as [|x l IH]; intros acc Hnd Hs.
  - exists acc. by rewrite app_nil_r.
  - simpl.
    assert (Forall (λ y, y.1 ≠ x.1) acc) as Hfresh.
    { apply Forall_forall. intros y Hy Heq.
      rewrite fmap_app, fmap_cons in Hnd.
      apply NoDup_app in Hnd as (_ & Hdisj & _).
      apply (Hdisj y.1); [by apply list_elem_of_fmap_2|].
      rewrite Heq. left. }
    destruct (insert_sorted_fresh x acc Hfresh Hs) as (r & -> & Hperm & Hr).
    destruct (IH r) as (r' & Hfold & Hperm' & Hr'); [|done|].
    { rewrite Hperm. simpl.
      rewrite fmap_app, fmap_cons in Hnd.
      apply NoDup_app in Hnd as (Hacc & Hdisj & Hxl).
      apply NoDup_cons in Hxl as [Hx Hl].
      rewrite fmap_app. apply NoDup_cons. split.
      - rewrite elem_of_app. intros [Hin|Hin]; [|done].
        apply (Hdisj x.1 Hin). left.
      - apply NoDup_app. split_and!; [done| |done].
        intros z Hz Hz'. apply (Hdisj z Hz). by right. }
    exists r'. split_and!; [done| |done].
    rewrite Hperm', Hperm. by rewrite <-Permutation_middle.
Qed.

(** With pairwise distinct slice indices [sorted] returns, and what it
    returns is the ascending rearrangement of its argument. *)
Lemma sorted_distinct (l : list (Z * image)) :
  NoDup (l.*1) →
  ∃ r, sorted l = Ok r ∧ r ≡ₚ l ∧ StronglySorted key_lt r.
Proof. intros Hnd. apply (sorted_from [] l); [done|constructor]. Qed.

Lemma np_stack_same_shape (l : list image) :
  l ≠ [] → same_shape l → np_stack l = Ok l.
Proof.
  destruct l as [|a rest]; [done|]. intros _ Hsame. simpl.
  rewrite (proj2 (forallb_forall _ rest)); [done|].
  intros b Hb. apply bool_decide_eq_true. apply Hsame; [right|left].
  by apply list_elem_of_In.
Qed.

Lemma np_stack_ok (l r : list image) : np_stack l = Ok r → r = l ∧ l ≠ [].
Proof.
  destruct l as [|a rest]; simpl; [done|].
  case_match; [|done]. by intros [= <-].
Qed.

End sorting.

(** ** Grouping by file name *)

Section grouping.
Context `{Evaluate}.

Lemma dd_append_get (d : ddict) (k k' : string) (v : Z * image) :
  dd_get (dd_append d k v) k'
  = if decide (k = k') then dd_get d k' ++ [v] else dd_get d k'.
Proof.
  induction d as [|[k0 vs] d IH]; simpl.
  - repeat case_decide; done.
  - destruct (decide (k0 = k)) as [->|Hk0]; simpl.
    + by destruct (decide (k = k')).
    + rewrite IH. destruct (decide (k = k')) as [->|Hk]; [|done].
      by destruct (decide (k0 = k')).
Qed.

Lemma dd_append_keys (d : ddict) (k : string) (v : Z * image) :
  (dd_append d k v).*1 = if decide (k ∈ d.*1) then d.*1 else d.*1 ++ [k].
Proof.
  induction d as [|[k0 vs] d IH].
  - done.
  - cbn [dd_append]. destruct (decide (k0 = k)) as [->|Hk0].
    + rewrite !fmap_cons. cbn [fst]. rewrite decide_True; [done|left].
    + rewrite !fmap_cons, IH. cbn [fst].
      destruct (decide (k ∈ d.*1)) as [Hin|Hin].
      * rewrite decide_True; [done|by right].
      * rewrite decide_False; [done|].
        rewrite elem_of_cons. intros [?|?]; congruence.
Qed.

Lemma dd_extend_get (d : ddict) (es : list (string * (Z * image))) (k : string) :
  dd_get (dd_extend d es) k = dd_get d k ++ (filter (λ e, e.1 = k) es).*2.
Proof.
  revert d. induction es as [|[k0 v] es IH]; intros d; simpl.
  - by rewrite app_nil_r.
  - unfold dd_extend in *. simpl. rewrite IH, dd_append_get.
    rewrite filter_cons. simpl. case_decide; subst.
    + by rewrite fmap_cons, <-app_assoc.
    + done.
Qed.

Lemma dd_extend_keys (d : ddict) (es : list (string * (Z * image))) :
  (dd_extend d es).*1 = keys_extend (d.*1) (es.*1).
Proof.
  revert d. induction es as [|[k0 v] es IH]; intros d; [done|].
  unfold dd_extend, keys_extend in *. simpl. by rewrite IH, dd_append_keys.
Qed.

Lemma keys_extend_NoDup (ks names : list string) :
  NoDup ks → NoDup (keys_extend ks names).
Proof.
  revert ks. induction names as [|k names IH]; intros ks Hnd; [done|].
  unfold keys_extend in *. simpl. apply IH. case_decide; [done|].
  apply NoDup_app. split_and!; [done| |apply NoDup_singleton].
  intros x Hx ->%list_elem_of_singleton. done.
Qed.

Lemma keys_extend_elem_of (ks names : list string) (k : string) :
  k ∈ keys_extend ks names ↔ k ∈ ks ∨ k ∈ names.
Proof.
  revert ks. induction names as [|k0 names IH]; intros ks.
  - simpl. rewrite elem_of_nil. naive_solver.
  - unfold keys_extend in *. simpl. rewrite IH, elem_of_cons.
    case_decide.
    + naive_solver.
    + rewrite elem_of_app, list_elem_of_singleton. naive_solver.
Qed.

Lemma label_keys (items : list (string * Z)) (arr : list image) :
  length items ≤ length arr →
  (λ e, (e.1, e.2.1)) <$> label items arr = items.
Proof.
  revert arr. induction items as [|[n sl] items IH]; intros [|a arr] Hlen;
    simpl in *; try done; try lia.
  f_equal. apply IH. lia.
Qed.

Lemma entries_keys h (field : log → loc) (logs : list log) :
  in_bounds h field logs →
  (λ e, (e.1, e.2.1)) <$> entries h field logs = logged logs.
Proof.
  induction 1 as [|lg logs Hlg _ IH]; [done|].
  unfold entries, logged in *. rewrite !bind_cons, fmap_app.
  by rewrite IH, label_keys.
Qed.

Lemma entries_fst h (field : log → loc) (logs : list log) :
  in_bounds h field logs → (entries h field logs).*1 = (logged logs).*1.
Proof.
  intros Hb. rewrite <-(entries_keys h field logs Hb).
  rewrite <-list_fmap_compose. done.
Qed.

(** The slice indices of one file are those of the logged pairs. *)
Lemma file_entries_slices h (field : log → loc) (logs : list log) (name : string) :
  in_bounds h field logs →
  (file_entries h field logs name).*1
  = (filter (λ p, p.1 = name) (logged logs)).*2.
Proof.
  intros Hb. rewrite <-(entries_keys h field logs Hb).
  unfold file_entries. generalize (entries h field logs).
  induction l as [|[n [sl a]] l IH]; [done|].
  rewrite fmap_cons, !filter_cons. cbn [fst snd].
  destruct (decide (n = name)); by rewrite ?fmap_cons, IH.
Qed.

Lemma filter_snd_NoDup (l : list (string * Z)) (name : string) :
  NoDup l → NoDup (filter (λ p, p.1 = name) l).*2.
Proof.
  intros Hnd. apply NoDup_fmap_2_strong.
  - intros [n1 s1] [n2 s2] [? ?]%list_elem_of_filter [? ?]%list_elem_of_filter.
    simpl in *. congruence.
  - by apply NoDup_filter.
Qed.

End grouping.

(** ** Gathering the logs *)

Section collecting.
Context `{Evaluate}.

Lemma dd_extend_app (d : ddict) (es es' : list (string * (Z * image))) :
  dd_extend d (es ++ es') = dd_extend (dd_extend d es) es'.
Proof. apply foldl_app. Qed.

Lemma collect_batch_ok h (lg : log) items i acc :
  i + length items ≤ length (h !!! output lg) →
  i + length items ≤ length (h !!! target lg) →
  collect_batch h lg i items acc
  = Ok (dd_extend acc.1 (label items (drop i (h !!! output lg))),
        dd_extend acc.2 (label items (drop i (h !!! target lg)))).
Proof.
  revert i acc. induction items as [|[name sl] items IH]; intros i acc Ho Ht.
  - by destruct acc.
  - simpl in Ho, Ht.
    destruct (lookup_lt_is_Some_2 (h !!! output lg) i) as [a Ha]; [lia|].
    destruct (lookup_lt_is_Some_2 (h !!! target lg) i) as [b Hb]; [lia|].
    cbn [collect_batch]. unfold getitem. rewrite Ha, Hb. simpl.
    rewrite IH by lia. by rewrite (drop_S _ _ _ Ha), (drop_S _ _ _ Hb).
Qed.

Lemma collect_ok h (logs : list log) losses outs tgts :
  in_bounds h output logs → in_bounds h target logs →
  collect h logs (losses, outs, tgts)
  = Ok (losses ++ (val_loss <$> logs),
        dd_extend outs (entries h output logs),
        dd_extend tgts (entries h target logs)).
Proof.
  intros Ho Ht. revert losses outs tgts Ht.
  induction Ho as [|lg logs Hlg _ IH]; intros losses outs tgts Ht.
  - by rewrite app_nil_r.
  - apply Forall_cons in Ht as [Hlg' Ht].
    cbn [collect]. rewrite collect_batch_ok by (simpl; lia). simpl.
    rewrite IH by done. rewrite !dd_extend_app, !drop_0.
    by rewrite <-app_assoc.
Qed.

Lemma collect_test_batch_ok h (lg : log) items i outs :
  i + length items ≤ length (h !!! output lg) →
  collect_test_batch h lg i items outs
  = Ok (dd_extend outs (label items (drop i (h !!! output lg)))).
Proof.
  revert i outs. induction items as [|[name sl] items IH]; intros i outs Ho.
  - done.
  - simpl in Ho.
    destruct (lookup_lt_is_Some_2 (h !!! output lg) i) as [a Ha]; [lia|].
    cbn [collect_test_batch]. unfold getitem. rewrite Ha. simpl.
    rewrite IH by lia. by rewrite (drop_S _ _ _ Ha).
Qed.

Lemma collect_test_ok h (logs : list log) outs :
  in_bounds h output logs →
  collect_test h logs outs = Ok (dd_extend outs (entries h output logs)).
Proof.
  intros Ho. revert outs.
  induction Ho as [|lg logs Hlg _ IH]; intros outs; [done|].
  cbn [collect_test]. rewrite collect_test_batch_ok by (simpl; lia). simpl.
  rewrite IH. by rewrite !dd_extend_app, !drop_0.
Qed.

(** The dictionary gathered from the logs: its keys are the file names in
    order of first appearance, each with its entries in logging order. *)
Lemma gathered_keys h (field : log → loc) (logs : list log) :
  in_bounds h field logs →
  (dd_extend [] (entries h field logs)).*1 = keys_extend [] (logged logs).*1.
Proof. intros Hb. by rewrite dd_extend_keys, entries_fst. Qed.

Lemma gathered_get h (field : log → loc) (logs : list log) (name : string) :
  dd_get (dd_extend [] (entries h field logs)) name
  = file_entries h field logs name.
Proof. by rewrite dd_extend_get. Qed.

Lemma same_shape_perm (l l' : list image) :
  l ≡ₚ l' → same_shape l → same_shape l'.
Proof.
  intros Hp Hs a b Ha Hb. apply Hs; by rewrite Hp.
Qed.

Lemma stack_sorted_ok (es : list (Z * image)) :
  es ≠ [] → NoDup es.*1 → same_shape es.*2 →
  ∃ r, r ≡ₚ es ∧ StronglySorted key_lt r ∧ stack_sorted es = Ok r.*2.
Proof.
  intros Hne Hnd Hsh.
  destruct (sorted_distinct es Hnd) as (r & Hr & Hperm & Hs).
  exists r. split_and!; [done..|].
  unfold stack_sorted. rewrite Hr. simpl.
  apply np_stack_same_shape.
  - intros Hnil%fmap_nil_inv. subst r.
    by apply Permutation_nil_l in Hperm.
  - eapply same_shape_perm; [|exact Hsh]. by rewrite Hperm.
Qed.

Lemma mapM_result_Forall2 {A B} (f : A → result B) (P : A → B → Prop)
    (l : list A) :
  (∀ x, x ∈ l → ∃ y, f x = Ok y ∧ P x y) →
  ∃ k, mapM f l = Ok k ∧ Forall2 P l k.
Proof.
  induction l as [|x l IH]; intros Hl.
  - exists []. by split.
  - destruct (Hl x) as (y & Hy & HP); [left|].
    destruct IH as (k & Hk & HF); [intros z Hz; apply Hl; by right|].
    exists (y :: k). simpl. rewrite Hy. simpl. rewrite Hk. simpl.
    split; [done|by constructor].
Qed.

End collecting.

(** ** [_evaluate] and [test_end] on logs that can be aggregated *)

Section aggregation.
Context `{Evaluate}.

Lemma mapM_result_bind {A B C} (f : A → result B) (k : B → result C)
    (g : B → C) (l : list A) (ys : list B) :
  (∀ y, k y = Ok (g y)) → mapM f l = Ok ys →
  mapM (λ x, f x ≫= k) l = Ok (g <$> ys).
Proof.
  intros Hk. revert ys. induction l as [|x l IH]; intros ys; simpl.
  - by intros [= <-].
  - destruct (f x) as [y|]; [simpl|done].
    destruct (mapM f l) as [k'|]; [simpl|done].
    intros [= <-]. by rewrite Hk, (IH k').
Qed.

Lemma file_entries_nonempty h (field : log → loc) (logs : list log) name :
  name ∈ (entries h field logs).*1 → file_entries h field logs name ≠ [].
Proof.
  intros ([n e] & -> & Hin)%list_elem_of_fmap Hnil%fmap_nil_inv.
  assert ((n, e) ∈ filter (λ e0 : string * (Z * image), e0.1 = n)
                          (entries h field logs)) as Hf
    by by apply list_elem_of_filter.
  simpl in Hnil. rewrite Hnil in Hf. by apply elem_of_nil in Hf.
Qed.

(** One file: its entries sort and stack. *)
Lemma file_stack_ok h (field : log → loc) (logs : list log) (name : string) :
  NoDup (logged logs) → aggregable h field logs →
  name ∈ (logged logs).*1 →
  ∃ r, sorted_entries h field logs name r
       ∧ stack_sorted (file_entries h field logs name) = Ok r.*2.
Proof.
  intros Hnd [Hb Hsh] Hin.
  destruct (stack_sorted_ok (file_entries h field logs name)) as (r & ? & ? & ?).
  - apply file_entries_nonempty. by rewrite entries_fst.
  - rewrite file_entries_slices by done. by apply filter_snd_NoDup.
  - unfold file_entries.
    intros a b ([s1 a1] & -> & ([n1 e1] & [= <-] & [Hn1 Ha]%list_elem_of_filter)
                                %list_elem_of_fmap)%list_elem_of_fmap
               ([s2 a2] & -> & ([n2 e2] & [= <-] & [Hn2 Hb']%list_elem_of_filter)
                                %list_elem_of_fmap)%list_elem_of_fmap.
    simpl in *. rewrite Forall_forall in Hsh.
    pose proof (Hsh _ Ha) as Hsh'. rewrite Forall_forall in Hsh'.
    apply (Hsh' _ Hb'). simpl. congruence.
  - exists r. by repeat split.
Qed.

Lemma evaluate_unfold (s : state) (logs : list log) losses outputs targets ms :
  collect (heap s) logs ([], [], []) = Ok (losses, outputs, targets) →
  mapM (file_metrics outputs targets) outputs.*1 = Ok ms →
  _evaluate logs s
  = (State (heap s) (trace s ++ [print (mean_metrics losses ms)]),
     Ok (with_log (mean_metrics losses ms))).
Proof.
  intros Hc Hm. unfold _evaluate.
  cbv [mbind M_bind get_heap lift]. rewrite Hc. cbn. by rewrite Hm.
Qed.

Lemma file_metrics_volumes (outputs targets : ddict) (names : list string)
    (vols : list (list image * list image)) :
  mapM (volumes outputs targets) names = Ok vols →
  mapM (file_metrics outputs targets) names = Ok (volume_metrics <$> vols).
Proof.
  intros Hv. unfold file_metrics.
  apply (mapM_result_bind _ _ volume_metrics); [|done]. by intros [out tgt].
Qed.

Lemma gather_spec (s : state) (logs : list log) :
  NoDup (logged logs) →
  aggregable (heap s) output logs → aggregable (heap s) target logs →
  aggregates s logs.
Proof.
  intros Hnd Ho Ht. set (h := heap s).
  pose proof (agg_bounds _ _ _ Ho) as Hbo.
  pose proof (agg_bounds _ _ _ Ht) as Hbt.
  set (outputs := dd_extend [] (entries h output logs)).
  set (targets := dd_extend [] (entries h target logs)).
  assert (outputs.*1 = keys_extend [] (logged logs).*1) as Hko
    by by apply gathered_keys.
  destruct (mapM_result_Forall2 (volumes outputs targets)
              (file_volumes h logs) outputs.*1) as (vols & Hvols & HF).
  { intros name Hname. rewrite Hko, keys_extend_elem_of in Hname.
    destruct Hname as [[]%elem_of_nil|Hname].
    destruct (file_stack_ok h output logs name) as (so & Hso & Heo); [done..|].
    destruct (file_stack_ok h target logs name) as (st & Hst & Het); [done..|].
    exists (so.*2, st.*2). split; [|by exists so, st].
    unfold volumes, outputs, targets. rewrite !gathered_get, Heo. simpl.
    by rewrite Het. }
  exists outputs, targets, vols. split_and!; try done.
  - by apply (collect_ok h logs [] [] []).
  - rewrite Hko. by apply keys_extend_NoDup, NoDup_nil.
  - intros name. rewrite Hko, keys_extend_elem_of, elem_of_nil. naive_solver.
  - unfold targets. by rewrite gathered_keys, Hko.
  - intros name. apply gathered_get.
  - intros name. apply gathered_get.
  - apply (evaluate_unfold s logs _ outputs targets).
    + by apply (collect_ok h logs [] [] []).
    + by apply file_metrics_volumes.
Qed.

Lemma test_end_unfold (hp : Hparams.t) (s : state) (logs : list log)
    (outputs : ddict) (stacked : list (string * list image)) :
  collect_test (heap s) logs [] = Ok outputs →
  mapM (λ name, v ← stack_sorted (dd_get outputs name); mret (name, v))
       outputs.*1 = Ok stacked →
  test_end hp logs s
  = (State (heap s)
       (trace s ++ [save_reconstructions stacked (reconstructions_dir hp)]),
     Ok []).
Proof.
  intros Hc Hm. unfold test_end.
  cbv [mbind M_bind get_heap lift] in Hm |- *. rewrite Hc. cbn.
  by rewrite Hm.
Qed.

Lemma test_spec h (logs : list log) :
  NoDup (logged logs) → aggregable h output logs →
  ∃ stacked, test_volumes h logs stacked.
Proof.
  intros Hnd Ho. pose proof (agg_bounds _ _ _ Ho) as Hbo.
  set (outputs := dd_extend [] (entries h output logs)).
  assert (outputs.*1 = keys_extend [] (logged logs).*1) as Hko
    by by apply gathered_keys.
  destruct (mapM_result_Forall2
              (λ name, v ← stack_sorted (dd_get outputs name); mret (name, v))
              (λ name nv, ∃ so, sorted_entries h output logs name so
                                ∧ nv = (name, so.*2))
              outputs.*1) as (stacked & Hst & HF).
  { intros name Hname. rewrite Hko, keys_extend_elem_of in Hname.
    destruct Hname as [[]%elem_of_nil|Hname].
    destruct (file_stack_ok h output logs name) as (so & Hso & Heo); [done..|].
    exists (name, so.*2). split; [|by exists so].
    unfold outputs. by rewrite gathered_get, Heo. }
  exists stacked, outputs. split_and!; try done.
  - by rewrite collect_test_ok.
  - rewrite Hko. by apply keys_extend_NoDup, NoDup_nil.
  - intros name. rewrite Hko, keys_extend_elem_of, elem_of_nil. naive_solver.
  - intros name. apply gathered_get.
Qed.

Lemma test_end_exports (hp : Hparams.t) (s : state) (logs : list log) :
  NoDup (logged logs) → aggregable (heap s) output logs → exports hp s logs.
Proof.
  intros Hnd Ho. destruct (test_spec (heap s) logs Hnd Ho) as (stacked & Hv).
  exists stacked. split; [done|].
  destruct Hv as (outputs & Hc & _ & _ & _ & Hm & _).
  by apply (test_end_unfold hp s logs outputs).
Qed.

End aggregation.

(** ** The state monad and [_visualize] *)

Section visualize.
Context `{Evaluate}.

Lemma M_bind_run {A B} (m : M A) (k : A → M B) (s : state) :
  (m ≫= k) s
  = match m s with
    | (s', Ok a) => k a s'
    | (s', Err e) => (s', Err e)
    end.
Proof. done. Qed.

Lemma mapM_cons_run {A B} (f : A → M B) (x : A) (l : list A) (s : state) :
  mapM f (x :: l) s
  = match f x s with
    | (s', Ok y) =>
        match mapM f l s' with
        | (s'', Ok ys) => (s'', Ok (y :: ys))
        | (s'', Err e) => (s'', Err e)
        end
    | (s', Err e) => (s', Err e)
    end.
Proof.
  simpl. rewrite M_bind_run. destruct (f x s) as [s' [y|e]]; [|done].
  rewrite M_bind_run. by destruct (mapM f l s') as [s'' [ys|e]].
Qed.

Lemma shape_shifted (a : image) : shape (shifted a) = shape a.
Proof. unfold shifted. by destruct (arr_min a). Qed.

Lemma length_shifted (a : image) :
  length (img_data (shifted a)) = length (img_data a).
Proof.
  unfold shifted. destruct (arr_min a); [|done]. simpl. by rewrite length_fmap.
Qed.

(** One call [_normalize(arr[0])] on the array at [l]. *)
Lemma normalize_run (l : loc) (s : state) :
  match heap s !!! l with
  | [] => (getitem_view l 0 ≫= _normalize) s = (s, Err IndexError)
  | a :: rest =>
      match arr_min a with
      | Err _ => (getitem_view l 0 ≫= _normalize) s = (s, Err ValueError)
      | Ok lo =>
          ∃ hi, arr_max (shifted a) = Ok hi
                ∧ (getitem_view l 0 ≫= _normalize) s
                  = (State (<[l := shifted a :: rest]> (heap s)) (trace s),
                     Ok (map_image (λ x, fdiv x hi) (shifted a)))
      end
  end.
Proof.
  destruct s as [h tr]. simpl.
  destruct (h !!! l) as [|a rest] eqn:Hl.
  - rewrite M_bind_run. unfold getitem_view. simpl. by rewrite Hl.
  - rewrite M_bind_run. unfold getitem_view. simpl. rewrite Hl. simpl.
    unfold _normalize. rewrite M_bind_run. unfold view_read. simpl.
    rewrite Hl. simpl. rewrite M_bind_run. unfold lift.
    unfold shifted. destruct (arr_min a) as [lo|e] eqn:Hmin.
    + assert (∃ hi, arr_max (map_image (λ x, fsub x lo) a) = Ok hi)
        as [hi Hhi].
      { unfold arr_min in Hmin. unfold arr_max. simpl.
        destruct (img_data a); [done|]. simpl. eauto. }
      exists hi. split; [done|].
      rewrite M_bind_run. unfold view_write. simpl. rewrite Hl. simpl.
      rewrite M_bind_run. simpl. rewrite lookup_total_insert_eq. simpl.
      rewrite M_bind_run. by rewrite Hhi.
    + unfold arr_min in Hmin. destruct (img_data a); [|done].
      by injection Hmin as <-.
Qed.

Lemma normalize_trace (l : loc) (s : state) :
  trace ((getitem_view l 0 ≫= _normalize) s).1 = trace s.
Proof.
  pose proof (normalize_run l s) as Hrun.
  destruct (heap s !!! l) as [|a rest]; [by rewrite Hrun|].
  destruct (arr_min a); [|by rewrite Hrun].
  destruct Hrun as (hi & _ & ->). done.
Qed.

Lemma normalize_ok (φ : nat * nat → Prop) (l : loc) (s : state) :
  first_image φ (heap s) l →
  ∃ o, (getitem_view l 0 ≫= _normalize) s
       = (State (shift_first (heap s) l) (trace s), Ok o)
       ∧ φ (shape o).
Proof.
  intros Hfirst. unfold first_image in Hfirst.
  pose proof (normalize_run l s) as Hrun. unfold shift_first.
  destruct (heap s !!! l) as [|a rest]; [done|]. destruct Hfirst as [Hlen Hφ].
  destruct (arr_min a) as [lo|] eqn:Hmin.
  - destruct Hrun as (hi & _ & ->). eexists. split; [done|].
    unfold shifted. by rewrite Hmin.
  - unfold arr_min in Hmin. destruct (img_data a); [simpl in Hlen; lia|done].
Qed.

Lemma shift_first_lookup (h : gmap loc (list image)) (l l' : loc) :
  shift_first h l !!! l'
  = if decide (l = l') then
      match h !!! l' with a :: rest => shifted a :: rest | [] => [] end
    else h !!! l'.
Proof.
  unfold shift_first. case_decide as Hl; subst.
  - destruct (h !!! l') eqn:Hh; [done|]. by rewrite lookup_total_insert_eq.
  - destruct (h !!! l); [done|]. by rewrite lookup_total_insert_ne.
Qed.

Lemma first_image_shift (φ : nat * nat → Prop) (h : gmap loc (list image))
    (l l' : loc) :
  first_image φ h l' → first_image φ (shift_first h l) l'.
Proof.
  unfold first_image. rewrite shift_first_lookup.
  case_decide; [|done]. destruct (h !!! l') as [|a rest]; [done|].
  by rewrite length_shifted, shape_shifted.
Qed.

(** Shifting keeps the number of images of every array and their shapes. *)
Lemma shift_first_layout (h : gmap loc (list image)) (l l' : loc) :
  shape <$> (shift_first h l !!! l') = shape <$> (h !!! l').
Proof.
  rewrite shift_first_lookup. case_decide; [|done].
  destruct (h !!! l'); [done|]. by rewrite !fmap_cons, shape_shifted.
Qed.

Lemma shift_all_layout (h : gmap loc (list image)) (ls : list loc) (l' : loc) :
  shape <$> (foldl shift_first h ls !!! l') = shape <$> (h !!! l').
Proof.
  revert h. induction ls as [|l ls IH]; intros h; [done|].
  simpl. by rewrite IH, shift_first_layout.
Qed.

Lemma visualize_step_trace (logs : list log) (i : nat) (s : state) :
  trace (visualize_step logs i s).1 = trace s.
Proof.
  unfold visualize_step. rewrite M_bind_run. unfold lift.
  destruct (logs !! i) as [lg|]; [|done].
  rewrite M_bind_run.
  pose proof (normalize_trace (output lg) s) as Ho.
  destruct ((getitem_view (output lg) 0 ≫= _normalize) s) as [s1 [o|e]];
    [|done].
  rewrite M_bind_run.
  pose proof (normalize_trace (target lg) s1) as Ht.
  destruct ((getitem_view (target lg) 0 ≫= _normalize) s1) as [s2 [t|e]];
    simpl in *; congruence.
Qed.

Lemma visualize_step_ok (φ : nat * nat → Prop) (logs : list log) (i : nat)
    (lg : log) (s : state) :
  logs !! i = Some lg →
  first_image φ (heap s) (output lg) → first_image φ (heap s) (target lg) →
  ∃ ot, visualize_step logs i s
        = (State (shift_first (shift_first (heap s) (output lg)) (target lg))
                 (trace s), Ok ot)
        ∧ φ (shape ot.1) ∧ φ (shape ot.2).
Proof.
  intros Hi Ho Ht. unfold visualize_step. rewrite M_bind_run. unfold lift.
  rewrite Hi. rewrite M_bind_run.
  destruct (normalize_ok φ (output lg) s Ho) as (o & -> & Hφo).
  rewrite M_bind_run.
  destruct (normalize_ok φ (target lg) (State (shift_first (heap s) (output lg))
                                              (trace s))) as (t & -> & Hφt).
  { by apply first_image_shift. }
  by exists (o, t).
Qed.

Lemma mapM_trace {A B} (f : A → M B) (l : list A) (s : state) :
  (∀ x s, trace (f x s).1 = trace s) → trace (mapM f l s).1 = trace s.
Proof.
  intros Hf. revert s. induction l as [|x l IH]; intros s; [done|].
  rewrite mapM_cons_run. specialize (Hf x s).
  destruct (f x s) as [s1 [y|e]]; [|done].
  specialize (IH s1). destruct (mapM f l s1) as [s2 [ys|e]]; simpl in *;
    congruence.
Qed.

Lemma mapM_length {A B} (f : A → M B) (l : list A) (s : state) (ys : list B) :
  (mapM f l s).2 = Ok ys → length ys = length l.
Proof.
  revert s ys. induction l as [|x l IH]; intros s ys.
  - by intros [= <-].
  - rewrite mapM_cons_run. destruct (f x s) as [s1 [y|e]]; [|done].
    specialize (IH s1). destruct (mapM f l s1) as [s2 [ys'|e]]; [|done].
    intros [= <-]. simpl. f_equal. by apply IH.
Qed.

Lemma visualize_steps_ok (φ : nat * nat → Prop) (logs : list log)
    (idx : list nat) (s : state) :
  Forall (λ i, i < length logs) idx →
  Forall (first_image φ (heap s)) (arrays_at logs idx) →
  ∃ ots, mapM (visualize_step logs) idx s
         = (State (foldl shift_first (heap s) (arrays_at logs idx)) (trace s),
            Ok ots)
         ∧ length ots = length idx
         ∧ Forall (λ ot, φ (shape ot.1) ∧ φ (shape ot.2)) ots.
Proof.
  intros Hidx. revert s. induction Hidx as [|i idx Hi _ IH]; intros s Hfirst.
  - exists []. destruct s. by repeat split.
  - destruct (lookup_lt_is_Some_2 logs i Hi) as [lg Hlg].
    unfold arrays_at in Hfirst. rewrite bind_cons, Hlg in Hfirst.
    apply Forall_app in Hfirst as [Hlg' Hrest].
    apply Forall_cons in Hlg' as [Ho Ht%Forall_cons_1].
    destruct Ht as [Ht _].
    destruct (visualize_step_ok φ logs i lg s Hlg Ho Ht) as (ot & Hstep & Hφ).
    destruct (IH (State (shift_first (shift_first (heap s) (output lg))
                                     (target lg)) (trace s)))
      as (ots & Hmap & Hlen & Hall).
    { simpl. eapply Forall_impl; [exact Hrest|].
      intros l Hl. by do 2 apply first_image_shift. }
    exists (ot :: ots). rewrite mapM_cons_run, Hstep, Hmap.
    split_and!.
    + unfold arrays_at. rewrite bind_cons, Hlg. done.
    + simpl. by rewrite Hlen.
    + by constructor.
Qed.

(** *** The indices visited *)

Lemma stride_pos (n : nat) : n ≠ 0 → 0 < stride n.
Proof.
  intros Hn. unfold stride.
  pose proof (Nat.div_mod_eq (n + 15) 16).
  pose proof (Nat.mod_upper_bound (n + 15) 16). lia.
Qed.

Lemma range_sampled (n : nat) :
  range 0 n (stride n)
  = if decide (n = 0) then Err ValueError else Ok (sampled n).
Proof.
  unfold range. destruct (decide (n = 0)) as [->|Hn].
  - reflexivity.
  - pose proof (stride_pos n Hn). rewrite decide_False by lia.
    unfold sampled. by rewrite Nat.sub_0_r.
Qed.

Lemma sampled_length (n : nat) : length (sampled n) ≤ 16.
Proof.
  unfold sampled. rewrite length_fmap, length_seq.
  destruct (decide (n = 0)) as [->|Hn]; [by vm_compute; lia|].
  pose proof (stride_pos n Hn) as Hpos.
  assert (n ≤ 16 * stride n) as Hle.
  { unfold stride. pose proof (Nat.div_mod_eq (n + 15) 16).
    pose proof (Nat.mod_upper_bound (n + 15) 16). lia. }
  assert ((n + stride n - 1) / stride n < 17); [|lia].
  apply Nat.Div0.div_lt_upper_bound. lia.
Qed.

Lemma sampled_lt (n : nat) : Forall (λ i, i < n) (sampled n).
Proof.
  unfold sampled. apply Forall_fmap, Forall_forall. intros k Hk.
  apply elem_of_seq in Hk as [_ Hk]. simpl in *.
  destruct (decide (stride n = 0)) as [Hz|Hz].
  { rewrite Hz in Hk. simpl in Hk. lia. }
  pose proof (Nat.div_mod_eq (n + stride n - 1) (stride n)).
  pose proof (Nat.mod_upper_bound (n + stride n - 1) (stride n) Hz).
  nia.
Qed.

(** *** [_visualize] and [_evaluate] step by step *)

Lemma visualize_run (logs : list log) (s : state) :
  _visualize logs s
  = match range 0 (length logs) (stride (length logs)) with
    | Err e => (s, Err e)
    | Ok idx =>
        match mapM (visualize_step logs) idx s with
        | (s1, Err e) => (s1, Err e)
        | (s1, Ok ots) =>
            match np_stack ots.*1 with
            | Err e => (s1, Err e)
            | Ok outputs =>
                match np_stack ots.*2 with
                | Err e => (s1, Err e)
                | Ok targets =>
                    let logged2 :=
                      trace s1 ++ [add_image "Target" (make_grid targets 4 1)]
                               ++ [add_image "Reconstruction"
                                     (make_grid outputs 4 1)] in
                    match np_abs_sub targets outputs with
                    | Err e => (State (heap s1) logged2, Err e)
                    | Ok err =>
                        (State (heap s1)
                           (logged2 ++ [add_image "Error" (make_grid err 4 1)]),
                         Ok ())
                    end
                end
            end
        end
    end.
Proof.
  unfold _visualize, stride. cbv zeta. rewrite M_bind_run. unfold lift at 1.
  destruct (range 0 (length logs) ((length logs + 15) / 16)) as [idx|e];
    [|done].
  rewrite M_bind_run.
  destruct (mapM (visualize_step logs) idx s) as [s1 [ots|e]]; [|done].
  rewrite M_bind_run. unfold lift at 1.
  destruct (np_stack ots.*1) as [outputs|e]; [|done].
  rewrite M_bind_run. unfold lift at 1.
  destruct (np_stack ots.*2) as [targets|e]; [|done].
  unfold save_image, emit, lift. rewrite !M_bind_run. cbn.
  destruct (np_abs_sub targets outputs) as [err|e]; cbn;
    by rewrite <-?app_assoc.
Qed.

Lemma evaluate_run (logs : list log) (s : state) :
  _evaluate logs s
  = match collect (heap s) logs ([], [], []) with
    | Err e => (s, Err e)
    | Ok (losses, outputs, targets) =>
        match mapM (file_metrics outputs targets) outputs.*1 with
        | Err e => (s, Err e)
        | Ok ms =>
            (State (heap s) (trace s ++ [print (mean_metrics losses ms)]),
             Ok (with_log (mean_metrics losses ms)))
        end
    end.
Proof.
  unfold _evaluate. rewrite M_bind_run. unfold get_heap at 1.
  rewrite M_bind_run. unfold lift at 1.
  destruct (collect (heap s) logs ([], [], [])) as [[[losses outputs] targets]|e];
    [|done].
  rewrite M_bind_run. unfold lift at 1.
  by destruct (mapM (file_metrics outputs targets) outputs.*1) as [ms|e].
Qed.

Lemma validation_end_run (logs : list log) (s : state) :
  validation_end logs s
  = match _visualize logs s with
    | (s', Ok _) => _evaluate logs s'
    | (s', Err e) => (s', Err e)
    end.
Proof. done. Qed.

Lemma np_abs_sub_length (targets outputs err : list image) :
  np_abs_sub targets outputs = Ok err →
  length err = length targets `min` length outputs.
Proof.
  intros Hlen%mapM_result_length. by rewrite Hlen, length_zip.
Qed.

(** What [_visualize] adds to the trace: image grids only, each with one
    entry per visited index; all three of them when it returns. *)
Lemma visualize_trace (logs : list log) (s : state) :
  ∃ new,
    trace (_visualize logs s).1 = trace s ++ new
    ∧ Forall (is_grid (length (sampled (length logs)))) new
    ∧ ((_visualize logs s).2 = Ok () →
       ∃ gt go ge, new = [add_image "Target" gt;
                          add_image "Reconstruction" go;
                          add_image "Error" ge]).
Proof.
  rewrite visualize_run, range_sampled.
  destruct (decide (length logs = 0)) as [Hn|Hn].
  { exists []. by rewrite app_nil_r. }
  pose proof (mapM_trace (visualize_step logs) (sampled (length logs)) s
                (visualize_step_trace logs)) as Htr.
  pose proof (mapM_length (visualize_step logs) (sampled (length logs)) s)
    as Hlen.
  destruct (mapM (visualize_step logs) (sampled (length logs)) s)
    as [s1 [ots|e]]; simpl in Htr; [|exists []; by rewrite app_nil_r].
  specialize (Hlen ots eq_refl).
  destruct (np_stack ots.*1) as [outputs|e] eqn:Ho;
    [|exists []; by rewrite app_nil_r].
  destruct (np_stack ots.*2) as [targets|e] eqn:Ht;
    [|exists []; by rewrite app_nil_r].
  apply np_stack_ok in Ho as [-> _]. apply np_stack_ok in Ht as [-> _].
  assert (is_grid (length (sampled (length logs)))
            (add_image "Target" (make_grid ots.*2 4 1))) as Hgt.
  { eexists _, _. split_and!; [done| |]; [set_solver|].
    simpl. by rewrite length_fmap. }
  assert (is_grid (length (sampled (length logs)))
            (add_image "Reconstruction" (make_grid ots.*1 4 1))) as Hgo.
  { eexists _, _. split_and!; [done| |]; [set_solver|].
    simpl. by rewrite length_fmap. }
  cbv zeta.
  destruct (np_abs_sub ots.*2 ots.*1) as [err|e] eqn:He; simpl; rewrite Htr.
  - eexists [_; _; _]. split_and!; [by rewrite <-?app_assoc| |by eauto].
    repeat constructor; [done..|].
    eexists _, _. split_and!; [done| |]; [set_solver|].
    simpl. apply np_abs_sub_length in He. rewrite He, !length_fmap. lia.
  - eexists [_; _]. split_and!; [by rewrite <-?app_assoc| |done].
    by repeat constructor.
Qed.

End visualize.

(** ** The heap [_visualize] leaves *)

Section mutation.
Context `{Evaluate}.

Lemma shift_all_lookup (h : gmap loc (list image)) (ls : list loc) (l : loc) :
  NoDup ls →
  foldl shift_first h ls !!! l
  = if decide (l ∈ ls) then
      match h !!! l with a :: rest => shifted a :: rest | [] => [] end
    else h !!! l.
Proof.
  intros Hnd. revert h. induction Hnd as [|l0 ls Hl0 _ IH]; intros h.
  - done.
  - simpl. rewrite IH, !shift_first_lookup.
    destruct (decide (l0 = l)) as [->|Hne].
    + rewrite (decide_False (P := l ∈ ls)) by done.
      rewrite decide_True by left. done.
    + destruct (decide (l ∈ ls)) as [Hin|Hin].
      * rewrite decide_True by by right. done.
      * rewrite decide_False; [done|]. rewrite elem_of_cons. naive_solver.
Qed.

Lemma sampled_nonempty (n : nat) : n ≠ 0 → sampled n ≠ [].
Proof.
  intros Hn Hnil. apply (f_equal length) in Hnil.
  unfold sampled in Hnil. rewrite length_fmap, length_seq in Hnil. simpl in Hnil.
  pose proof (stride_pos n Hn) as Hpos.
  pose proof (Nat.div_mod_eq (n + stride n - 1) (stride n)).
  pose proof (Nat.mod_upper_bound (n + stride n - 1) (stride n)).
  rewrite Hnil in *. lia.
Qed.

Lemma visualize_heap (φ : nat * nat → Prop) (logs : list log) (s : state) :
  Forall (first_image φ (heap s)) (sampled_arrays logs) →
  heap (_visualize logs s).1 = foldl shift_first (heap s) (sampled_arrays logs).
Proof.
  intros Hfirst. rewrite visualize_run, range_sampled.
  destruct (decide (length logs = 0)) as [Hn|Hn].
  { apply length_zero_iff_nil in Hn. by subst. }
  destruct (visualize_steps_ok φ logs (sampled (length logs)) s)
    as (ots & -> & _); [apply sampled_lt|done|].
  destruct (np_stack ots.*1); [|done].
  destruct (np_stack ots.*2); [|done].
  cbv zeta. by destruct (np_abs_sub _ _).
Qed.

Lemma broadcast2_same_shape (f : F → F → F) (a b : image) :
  shape a = shape b → ∃ c, broadcast2 f a b = Ok c.
Proof.
  intros [= Hh Hw]. unfold broadcast2, bdim. rewrite Hh, Hw.
  rewrite !decide_True by done. simpl. eauto.
Qed.

(** On first images of one shape [_visualize] returns, having logged the
    three grids. *)
Lemma visualize_ok (sh : nat * nat) (logs : list log) (s : state) :
  logs ≠ [] →
  Forall (first_image (λ x, x = sh) (heap s)) (sampled_arrays logs) →
  ∃ gt go ge,
    _visualize logs s
    = (State (foldl shift_first (heap s) (sampled_arrays logs))
             (trace s ++ [add_image "Target" gt;
                          add_image "Reconstruction" go;
                          add_image "Error" ge]),
       Ok ()).
Proof.
  intros Hne Hfirst. rewrite visualize_run, range_sampled.
  assert (length logs ≠ 0) as Hn by by destruct logs.
  rewrite decide_False by done.
  destruct (visualize_steps_ok (λ x, x = sh) logs (sampled (length logs)) s)
    as (ots & -> & Hlen & Hsh); [apply sampled_lt|done|].
  assert (ots ≠ []) as Hots.
  { intros ->. by apply (sampled_nonempty _ Hn), nil_length_inv. }
  rewrite (np_stack_same_shape ots.*1), (np_stack_same_shape ots.*2).
  - cbv zeta.
    destruct (mapM_result_Forall2
                (λ p : image * image,
                   broadcast2 (λ x y, fabs (fsub x y)) p.1 p.2)
                (λ _ _, True) (zip ots.*2 ots.*1)) as (err & Herr & _).
    { intros [t o] Hin. apply elem_of_zip_l in Hin as Ht.
      apply elem_of_zip_r in Hin as Ho.
      apply list_elem_of_fmap in Ht as (ot1 & -> & Hot1).
      apply list_elem_of_fmap in Ho as (ot2 & -> & Hot2).
      rewrite Forall_forall in Hsh.
      destruct (broadcast2_same_shape (λ x y, fabs (fsub x y)) ot1.2 ot2.1)
        as (c & Hc).
      { destruct (Hsh _ Hot1) as [_ ->]. by destruct (Hsh _ Hot2) as [-> _]. }
      by exists c. }
    unfold np_abs_sub. rewrite Herr. simpl. eexists _, _, _.
    by rewrite <-?app_assoc.
  - by intros ?%fmap_nil_inv.
  - intros a b (ot1 & -> & Hot1)%list_elem_of_fmap
               (ot2 & -> & Hot2)%list_elem_of_fmap.
    rewrite Forall_forall in Hsh.
    destruct (Hsh _ Hot1) as [_ ->]. by destruct (Hsh _ Hot2) as [_ ->].
  - by intros ?%fmap_nil_inv.
  - intros a b (ot1 & -> & Hot1)%list_elem_of_fmap
               (ot2 & -> & Hot2)%list_elem_of_fmap.
    rewrite Forall_forall in Hsh.
    destruct (Hsh _ Hot1) as [-> _]. by destruct (Hsh _ Hot2) as [-> _].
Qed.

End mutation.

(** ** Well-formed logs stay well-formed under [_visualize] *)

Section validation.
Context `{Evaluate}.

Lemma sampled_arrays_elem (logs : list log) (l : loc) :
  l ∈ sampled_arrays logs →
  ∃ lg, lg ∈ logs ∧ (l = output lg ∨ l = target lg).
Proof.
  unfold sampled_arrays, arrays_at. intros (i & Hl & _)%list_elem_of_bind.
  destruct (logs !! i) as [lg|] eqn:Hi; [|by apply elem_of_nil in Hl].
  exists lg. split; [by eapply list_elem_of_lookup_2|]. set_solver.
Qed.

Lemma well_formed_first h (logs : list log) (sh : nat * nat) :
  well_formed h logs sh →
  Forall (first_image (λ x, x = sh) h) (sampled_arrays logs).
Proof.
  intros [_ Hb]. apply Forall_forall. intros l Hl.
  apply sampled_arrays_elem in Hl as (lg & Hlg & Hl).
  rewrite Forall_forall in Hb. destruct (Hb _ Hlg) as [Ho Ht].
  assert (batch_ok h sh lg l) as (_ & Hlen & Hall) by by destruct Hl as [->| ->].
  unfold first_image. destruct (h !!! l) as [|a rest]; [simpl in Hlen; lia|].
  apply Forall_cons in Hall as [[? ?] _]. done.
Qed.

Lemma entries_elem h (field : log → loc) (logs : list log)
    (e : string * (Z * image)) :
  e ∈ entries h field logs → ∃ lg, lg ∈ logs ∧ e.2.2 ∈ h !!! field lg.
Proof.
  unfold entries. intros (lg & He & Hlg)%list_elem_of_bind.
  exists lg. split; [done|]. unfold label in He.
  apply elem_of_zip_with in He as (p & a & -> & _ & Ha). done.
Qed.

Lemma layout_aggregable h h' (field : log → loc) (logs : list log)
    (sh : nat * nat) :
  field = output ∨ field = target →
  well_formed h logs sh →
  (∀ l, shape <$> (h' !!! l) = shape <$> (h !!! l)) →
  aggregable h' field logs.
Proof.
  intros Hfield [_ Hb] Hlayout.
  assert (∀ lg, lg ∈ logs → batch_ok h sh lg (field lg)) as Hok.
  { intros lg Hlg. rewrite Forall_forall in Hb. destruct (Hb _ Hlg).
    by destruct Hfield as [->| ->]. }
  split.
  - apply Forall_forall. intros lg Hlg. destruct (Hok lg Hlg) as (Hlen & _ & _).
    by rewrite <-(length_fmap shape), Hlayout, length_fmap.
  - assert (∀ e, e ∈ entries h' field logs → shape e.2.2 = sh) as Hsh.
    { intros e (lg & Hlg & He)%entries_elem.
      destruct (Hok lg Hlg) as (_ & _ & Hall).
      assert (Forall (λ x, x = sh) (shape <$> h' !!! field lg)) as Hall'.
      { rewrite Hlayout. apply Forall_fmap. eapply Forall_impl; [exact Hall|].
        by intros a [? _]. }
      rewrite Forall_forall in Hall'. apply Hall'.
      by apply list_elem_of_fmap_2. }
    apply Forall_forall. intros e1 He1. apply Forall_forall. intros e2 He2 _.
    by rewrite (Hsh e1), (Hsh e2).
Qed.

Lemma mean_metrics_volumes (losses : list F)
    (vols : list (list image * list image)) :
  mean_metrics losses (volume_metrics <$> vols)
  = [("val_loss", np_mean losses);
     ("nmse", np_mean ((λ v, nmse v.2 v.1) <$> vols));
     ("ssim", np_mean ((λ v, ssim v.2 v.1) <$> vols));
     ("psnr", np_mean ((λ v, psnr v.2 v.1) <$> vols))].
Proof. unfold mean_metrics. by rewrite <-!list_fmap_compose. Qed.

End validation.

(** ** The images [_visualize] logs *)

Section grids.
Context `{Evaluate}.

Lemma normalised_first_lookup h h' (l : loc) :
  h' !!! l = h !!! l → normalised_first h' l = normalised_first h l.
Proof. unfold normalised_first. by intros ->. Qed.

Lemma normalize_ok_value (φ : nat * nat → Prop) (l : loc) (s : state) :
  first_image φ (heap s) l →
  ∃ o, (getitem_view l 0 ≫= _normalize) s
       = (State (shift_first (heap s) l) (trace s), Ok o)
       ∧ φ (shape o)
       ∧ normalised_first (shift_first (heap s) l) l = Some o.
Proof.
  intros Hfirst. unfold first_image in Hfirst.
  pose proof (normalize_run l s) as Hrun.
  unfold normalised_first. rewrite shift_first_lookup, decide_True by done.
  unfold shift_first.
  destruct (heap s !!! l) as [|a rest]; [done|]. destruct Hfirst as [Hlen Hφ].
  destruct (arr_min a) as [lo|] eqn:Hmin.
  - destruct Hrun as (hi & Hhi & ->). rewrite Hhi. eexists. split; [done|].
    split; [|done]. unfold shifted. by rewrite Hmin.
  - unfold arr_min in Hmin. destruct (img_data a); [simpl in Hlen; lia|done].
Qed.

Lemma visualize_step_value (φ : nat * nat → Prop) (logs : list log) (i : nat)
    (lg : log) (s : state) :
  logs !! i = Some lg →
  first_image φ (heap s) (output lg) → first_image φ (heap s) (target lg) →
  let h2 := shift_first (shift_first (heap s) (output lg)) (target lg) in
  ∃ ot, visualize_step logs i s = (State h2 (trace s), Ok ot)
        ∧ φ (shape ot.1) ∧ φ (shape ot.2)
        ∧ normalised_first h2 (target lg) = Some ot.2
        ∧ (output lg ≠ target lg → normalised_first h2 (output lg) = Some ot.1).
Proof.
  intros Hi Ho Ht h2. unfold visualize_step. rewrite M_bind_run. unfold lift.
  rewrite Hi. rewrite M_bind_run.
  destruct (normalize_ok_value φ (output lg) s Ho) as (o & -> & Hφo & Hno).
  rewrite M_bind_run.
  destruct (normalize_ok_value φ (target lg)
              (State (shift_first (heap s) (output lg)) (trace s)))
    as (t & -> & Hφt & Hnt).
  { by apply first_image_shift. }
  exists (o, t). split_and!; [done..|].
  intros Hne. simpl. rewrite <-Hno. apply normalised_first_lookup. subst h2.
  by rewrite shift_first_lookup, decide_False.
Qed.

Lemma visualize_steps_value (φ : nat * nat → Prop) (logs : list log)
    (idx : list nat) (s : state) :
  Forall (λ i, i < length logs) idx →
  Forall (first_image φ (heap s)) (arrays_at logs idx) →
  let h1 := foldl shift_first (heap s) (arrays_at logs idx) in
  ∃ ots, mapM (visualize_step logs) idx s = (State h1 (trace s), Ok ots)
         ∧ length ots = length idx
         ∧ Forall (λ ot, φ (shape ot.1) ∧ φ (shape ot.2)) ots
         ∧ (NoDup (arrays_at logs idx) → normalised_pairs h1 logs idx ots).
Proof.
  intros Hidx. revert s. induction Hidx as [|i idx Hi _ IH]; intros s Hfirst.
  - exists []. destruct s. split_and!; try done. intros _. constructor.
  - destruct (lookup_lt_is_Some_2 logs i Hi) as [lg Hlg].
    assert (arrays_at logs (i :: idx)
            = output lg :: target lg :: arrays_at logs idx) as Harr.
    { unfold arrays_at. by rewrite bind_cons, Hlg. }
    rewrite Harr in Hfirst |- *.
    apply Forall_cons in Hfirst as [Ho Hfirst].
    apply Forall_cons in Hfirst as [Ht Hrest].
    destruct (visualize_step_value φ logs i lg s Hlg Ho Ht)
      as (ot & Hstep & Hφ1 & Hφ2 & Hnt & Hno).
    set (h2 := shift_first (shift_first (heap s) (output lg)) (target lg)) in *.
    destruct (IH (State h2 (trace s))) as (ots & Hmap & Hlen & Hall & Hvals).
    { simpl. eapply Forall_impl; [exact Hrest|].
      intros l Hl. by do 2 apply first_image_shift. }
    simpl in Hmap, Hvals.
    exists (ot :: ots). rewrite mapM_cons_run, Hstep, Hmap.
    split_and!; [done|simpl; by rewrite Hlen|by constructor|].
    intros Hnd. apply NoDup_cons in Hnd as [Ho' Hnd].
    apply NoDup_cons in Hnd as [Ht' Hnd].
    constructor; [|by apply Hvals].
    exists lg. split; [done|]. simpl. split.
    + rewrite <-Hno by set_solver. apply normalised_first_lookup.
      rewrite shift_all_lookup, decide_False by set_solver. done.
    + rewrite <-Hnt. apply normalised_first_lookup.
      by rewrite shift_all_lookup, decide_False.
Qed.

Lemma visualize_ok_grids (sh : nat * nat) (logs : list log) (s : state) :
  logs ≠ [] →
  Forall (first_image (λ x, x = sh) (heap s)) (sampled_arrays logs) →
  let h1 := foldl shift_first (heap s) (sampled_arrays logs) in
  ∃ ots err,
    _visualize logs s
    = (State h1 (trace s ++ [add_image "Target" (make_grid ots.*2 4 1);
                             add_image "Reconstruction" (make_grid ots.*1 4 1);
                             add_image "Error" (make_grid err 4 1)]),
       Ok ())
    ∧ length ots = length (sampled (length logs))
    ∧ (NoDup (sampled_arrays logs) →
       normalised_pairs h1 logs (sampled (length logs)) ots)
    ∧ np_abs_sub ots.*2 ots.*1 = Ok err.
Proof.
  intros Hne Hfirst h1. rewrite visualize_run, range_sampled.
  assert (length logs ≠ 0) as Hn by by destruct logs.
  rewrite decide_False by done.
  destruct (visualize_steps_value (λ x, x = sh) logs (sampled (length logs)) s)
    as (ots & -> & Hlen & Hsh & Hvals); [apply sampled_lt|done|].
  assert (ots ≠ []) as Hots.
  { intros ->. by apply (sampled_nonempty _ Hn), nil_length_inv. }
  assert (same_shape ots.*1 ∧ same_shape ots.*2) as [Hs1 Hs2].
  { rewrite Forall_forall in Hsh.
    split; intros a b (ot1 & -> & Hot1)%list_elem_of_fmap
                      (ot2 & -> & Hot2)%list_elem_of_fmap;
      destruct (Hsh _ Hot1) as [Ha1 Ha2], (Hsh _ Hot2) as [Hb1 Hb2];
      congruence. }
  rewrite (np_stack_same_shape ots.*1), (np_stack_same_shape ots.*2);
    [|by intros ?%fmap_nil_inv|done|by intros ?%fmap_nil_inv|done].
  cbv zeta.
  destruct (mapM_result_Forall2
              (λ p : image * image,
                 broadcast2 (λ x y, fabs (fsub x y)) p.1 p.2)
              (λ _ _, True) (zip ots.*2 ots.*1)) as (err & Herr & _).
  { intros [t o] Hin. apply elem_of_zip_l in Hin as Ht.
    apply elem_of_zip_r in Hin as Ho.
    apply list_elem_of_fmap in Ht as (ot1 & -> & Hot1).
    apply list_elem_of_fmap in Ho as (ot2 & -> & Hot2).
    rewrite Forall_forall in Hsh.
    destruct (broadcast2_same_shape (λ x y, fabs (fsub x y)) ot1.2 ot2.1)
      as (c & Hc).
    { destruct (Hsh _ Hot1) as [_ ->]. by destruct (Hsh _ Hot2) as [-> _]. }
    by exists c. }
  exists ots, err. unfold np_abs_sub at 1. rewrite Herr. simpl.
  split_and!; [by rewrite <-?app_assoc|done|done|done].
Qed.

End grids.

(** ** Where exceptions come from *)

Section exceptions.
Context `{Evaluate}.

Lemma lib_errors_ok {A} (a : A) : lib_errors (Ok a).
Proof. by intros e. Qed.

Lemma lib_errors_err {A B} (e : exn) :
  lib_errors (@Err A e) → lib_errors (@Err B e).
Proof. intros He e' [= <-]. by apply He. Qed.

Ltac propagate := simpl; by eapply lib_errors_err.

Ltac settle :=
  let e := fresh "e" in let Heq := fresh "Heq" in
  intros e Heq; inversion Heq; subst; auto.

Lemma lib_errors_bind {A B} (m : result A) (k : A → result B) :
  lib_errors m → (∀ a, lib_errors (k a)) → lib_errors (m ≫= k).
Proof.
  intros Hm Hk e. destruct m as [a|e']; simpl.
  - apply Hk.
  - intros [= ->]. by apply Hm.
Qed.

Lemma lib_errors_mapM {A B} (f : A → result B) (l : list A) :
  (∀ x, lib_errors (f x)) → lib_errors (mapM f l).
Proof.
  intros Hf. induction l as [|x l IH]; [apply lib_errors_ok|].
  simpl. apply lib_errors_bind; [done|]. intros y.
  apply lib_errors_bind; [done|]. intros ys. apply lib_errors_ok.
Qed.

Lemma lib_errors_getitem (arr : list image) (i : nat) :
  lib_errors (getitem arr i).
Proof. unfold getitem. destruct (arr !! i); settle. Qed.

Lemma lib_errors_np_stack (l : list image) : lib_errors (np_stack l).
Proof.
  unfold np_stack. destruct l; [settle|].
  case_match; settle.
Qed.

Lemma lib_errors_broadcast2 (f : F → F → F) (a b : image) :
  lib_errors (broadcast2 f a b).
Proof.
  assert (∀ m n, lib_errors (bdim m n)) as Hb.
  { intros m n. unfold bdim. repeat case_decide; settle. }
  unfold broadcast2. apply lib_errors_bind; [done|]. intros h.
  apply lib_errors_bind; [done|]. intros w. apply lib_errors_ok.
Qed.

Lemma lib_errors_np_abs_sub (targets outputs : list image) :
  lib_errors (np_abs_sub targets outputs).
Proof. apply lib_errors_mapM. intros p. apply lib_errors_broadcast2. Qed.

Lemma lib_errors_truth_cmp (cmp : F → F → bool) (a b : image) :
  lib_errors (truth_cmp cmp a b).
Proof.
  unfold truth_cmp.
  destruct (img_data a) as [|? [|? ?]], (img_data b) as [|? [|? ?]];
    settle.
Qed.

Lemma lib_errors_tuple_lt (x y : Z * image) : lib_errors (tuple_lt x y).
Proof.
  unfold tuple_lt. case_decide; [|apply lib_errors_ok].
  apply lib_errors_bind; [apply lib_errors_truth_cmp|].
  intros [|]; [apply lib_errors_ok|apply lib_errors_truth_cmp].
Qed.

Lemma lib_errors_insert_sorted (x : Z * image) (l : list (Z * image)) :
  lib_errors (insert_sorted x l).
Proof.
  induction l as [|y l IH]; [apply lib_errors_ok|].
  simpl. apply lib_errors_bind; [apply lib_errors_tuple_lt|].
  intros [|]; [apply lib_errors_ok|].
  apply lib_errors_bind; [done|]. intros r. apply lib_errors_ok.
Qed.

Lemma lib_errors_sorted (l : list (Z * image)) : lib_errors (sorted l).
Proof.
  unfold sorted. generalize (lib_errors_ok (@nil (Z * image))).
  generalize (@Ok (list (Z * image)) []).
  induction l as [|x l IH]; intros acc Hacc; [done|].
  simpl. apply IH. apply lib_errors_bind; [done|].
  intros s. apply lib_errors_insert_sorted.
Qed.

Lemma lib_errors_stack_sorted (es : list (Z * image)) :
  lib_errors (stack_sorted es).
Proof.
  unfold stack_sorted. apply lib_errors_bind; [apply lib_errors_sorted|].
  intros s. apply lib_errors_np_stack.
Qed.

Lemma lib_errors_collect_batch h (lg : log) i items acc :
  lib_errors (collect_batch h lg i items acc).
Proof.
  revert i acc. induction items as [|[name sl] items IH]; intros i acc;
    [apply lib_errors_ok|].
  simpl. apply lib_errors_bind; [apply lib_errors_getitem|]. intros out.
  apply lib_errors_bind; [apply lib_errors_getitem|]. intros tgt. apply IH.
Qed.

Lemma lib_errors_collect h (logs : list log) acc :
  lib_errors (collect h logs acc).
Proof.
  revert acc. induction logs as [|lg logs IH]; intros [[losses outs] tgts];
    [apply lib_errors_ok|].
  simpl. apply lib_errors_bind; [apply lib_errors_collect_batch|].
  intros [outs' tgts']. apply IH.
Qed.

Lemma lib_errors_collect_test_batch h (lg : log) i items outs :
  lib_errors (collect_test_batch h lg i items outs).
Proof.
  revert i outs. induction items as [|[name sl] items IH]; intros i outs;
    [apply lib_errors_ok|].
  simpl. apply lib_errors_bind; [apply lib_errors_getitem|]. intros out.
  apply IH.
Qed.

Lemma lib_errors_collect_test h (logs : list log) outs :
  lib_errors (collect_test h logs outs).
Proof.
  revert outs. induction logs as [|lg logs IH]; intros outs;
    [apply lib_errors_ok|].
  simpl. apply lib_errors_bind; [apply lib_errors_collect_test_batch|].
  intros outs'. apply IH.
Qed.

Lemma lib_errors_file_metrics (outputs targets : ddict) (name : string) :
  lib_errors (file_metrics outputs targets name).
Proof.
  unfold file_metrics, volumes.
  apply lib_errors_bind; [|intros [out tgt]; apply lib_errors_ok].
  apply lib_errors_bind; [apply lib_errors_stack_sorted|]. intros out.
  apply lib_errors_bind; [apply lib_errors_stack_sorted|]. intros tgt.
  apply lib_errors_ok.
Qed.

Lemma lib_errors_range (start stop step : nat) :
  lib_errors (range start stop step).
Proof. unfold range. case_decide; settle. Qed.

Lemma lib_errors_evaluate (logs : list log) (s : state) :
  lib_errors (_evaluate logs s).2.
Proof.
  rewrite evaluate_run.
  pose proof (lib_errors_collect (heap s) logs ([], [], [])) as Hc.
  destruct (collect (heap s) logs ([], [], []))
    as [[[losses outputs] targets]|e]; [|propagate].
  pose proof (lib_errors_mapM (file_metrics outputs targets) outputs.*1
                (lib_errors_file_metrics outputs targets)) as Hm.
  destruct (mapM (file_metrics outputs targets) outputs.*1); [|propagate].
  apply lib_errors_ok.
Qed.

Lemma lib_errors_normalize (l : loc) (s : state) :
  lib_errors ((getitem_view l 0 ≫= _normalize) s).2.
Proof.
  pose proof (normalize_run l s) as Hrun.
  destruct (heap s !!! l) as [|a rest]; [rewrite Hrun; settle|].
  destruct (arr_min a); [|rewrite Hrun; settle].
  destruct Hrun as (hi & _ & ->). apply lib_errors_ok.
Qed.

Lemma lib_errors_visualize_step (logs : list log) (i : nat) (s : state) :
  lib_errors (visualize_step logs i s).2.
Proof.
  unfold visualize_step. rewrite M_bind_run. unfold lift.
  destruct (logs !! i) as [lg|]; [|settle].
  rewrite M_bind_run.
  pose proof (lib_errors_normalize (output lg) s) as Ho.
  destruct ((getitem_view (output lg) 0 ≫= _normalize) s) as [s1 [o|e]];
    [|propagate].
  rewrite M_bind_run.
  pose proof (lib_errors_normalize (target lg) s1) as Ht.
  destruct ((getitem_view (target lg) 0 ≫= _normalize) s1) as [s2 [t|e]];
    [|propagate].
  apply lib_errors_ok.
Qed.

Lemma lib_errors_mapM_run {A B} (f : A → M B) (l : list A) (s : state) :
  (∀ x s, lib_errors (f x s).2) → lib_errors (mapM f l s).2.
Proof.
  intros Hf. revert s. induction l as [|x l IH]; intros s;
    [apply lib_errors_ok|].
  rewrite mapM_cons_run. specialize (Hf x s).
  destruct (f x s) as [s1 [y|e]]; [|propagate].
  specialize (IH s1). destruct (mapM f l s1) as [s2 [ys|e]]; [|propagate].
  apply lib_errors_ok.
Qed.

Lemma lib_errors_visualize (logs : list log) (s : state) :
  lib_errors (_visualize logs s).2.
Proof.
  rewrite visualize_run.
  pose proof (lib_errors_range 0 (length logs) (stride (length logs))) as Hr.
  destruct (range 0 (length logs) (stride (length logs))) as [idx|e]; [|propagate].
  pose proof (lib_errors_mapM_run (visualize_step logs) idx s
                (lib_errors_visualize_step logs)) as Hm.
  destruct (mapM (visualize_step logs) idx s) as [s1 [ots|e]]; [|propagate].
  pose proof (lib_errors_np_stack ots.*1) as Ho.
  destruct (np_stack ots.*1) as [outputs|e]; [|propagate].
  pose proof (lib_errors_np_stack ots.*2) as Ht.
  destruct (np_stack ots.*2) as [targets|e]; [|propagate].
  pose proof (lib_errors_np_abs_sub targets outputs) as He.
  cbv zeta. destruct (np_abs_sub targets outputs); [|propagate].
  apply lib_errors_ok.
Qed.

Lemma lib_errors_validation_end (logs : list log) (s : state) :
  lib_errors (validation_end logs s).2.
Proof.
  rewrite validation_end_run.
  pose proof (lib_errors_visualize logs s) as Hv.
  destruct (_visualize logs s) as [s1 [[]|e]]; [|propagate].
  apply lib_errors_evaluate.
Qed.

Lemma lib_errors_test_end (hp : Hparams.t) (logs : list log) (s : state) :
  lib_errors (test_end hp logs s).2.
Proof.
  unfold test_end. rewrite M_bind_run. unfold get_heap at 1.
  rewrite M_bind_run. unfold lift at 1.
  pose proof (lib_errors_collect_test (heap s) logs []) as Hc.
  destruct (collect_test (heap s) logs []) as [outputs|e]; [|propagate].
  rewrite M_bind_run. unfold lift at 1.
  pose proof (lib_errors_mapM
                (λ name, v ← stack_sorted (dd_get outputs name);
                         mret (name, v)) outputs.*1) as Hm.
  destruct (mapM _ outputs.*1) as [stacked|e].
  - apply lib_errors_ok.
  - simpl. eapply lib_errors_err, Hm. intros name. apply lib_errors_bind;
      [apply lib_errors_stack_sorted|]. intros v. apply lib_errors_ok.
Qed.

End exceptions.

(** * The claims *)

Section claims.

(** C1 (as amended).  For every list of logs in which no (file name, slice
    index) pair occurs twice, every logged pair has an image in the batch
    arrays, and the slices of one file have one shape: [_evaluate] groups
    the outputs and the targets by file name, sorts the entries of every
    file in ascending slice order and stacks them into one volume per file,
    and [test_end] does the same with the outputs before it saves them. *)
Theorem aggregation_by_file `{Evaluate} (hp : Hparams.t) (s : state)
    (logs : list log) :
  NoDup (logged logs) →
  aggregable (heap s) output logs →
  aggregable (heap s) target logs →
  aggregates s logs ∧ exports hp s logs.
Proof.
  intros Hnd Ho Ht. split.
  - by apply gather_spec.
  - by apply test_end_exports.
Qed.

Lemma aggregation_by_file_witness :
  NoDup (logged example_logs)
  ∧ aggregable example_heap output example_logs
  ∧ aggregable example_heap target example_logs
  ∧ aggregates example_state example_logs
  ∧ exports example_hparams example_state example_logs.
Proof.
  assert (NoDup (logged example_logs)) as Hnd
    by (apply (bool_decide_unpack _); vm_compute; exact I).
  assert (aggregable example_heap output example_logs) as Ho
    by (split; apply (bool_decide_unpack _); vm_compute; exact I).
  assert (aggregable example_heap target example_logs) as Ht
    by (split; apply (bool_decide_unpack _); vm_compute; exact I).
  split_and!; [done..| |];
    apply (aggregation_by_file example_hparams example_state example_logs);
    done.
Defined.

(** C1 as stated fails when a slice index repeats within a file: [sorted]
    then compares two arrays, and both [_evaluate] and [test_end] raise. *)
Lemma aggregation_duplicate_slice :
  _evaluate duplicate_logs example_state = (example_state, Err ValueError)
  ∧ test_end example_hparams duplicate_logs example_state
    = (example_state, Err ValueError)
  ∧ ¬ aggregates example_state duplicate_logs
  ∧ ¬ exports example_hparams example_state duplicate_logs.
Proof.
  assert (_evaluate duplicate_logs example_state
          = (example_state, Err ValueError)) as He by (vm_compute; reflexivity).
  assert (test_end example_hparams duplicate_logs example_state
          = (example_state, Err ValueError)) as Ht by (vm_compute; reflexivity).
  split_and!; [done..| |].
  - intros (? & ? & ? & _ & _ & _ & _ & _ & _ & _ & _ & Hev).
    simpl in Hev. rewrite He in Hev. discriminate.
  - intros (? & _ & Hte). rewrite Ht in Hte. discriminate.
Qed.

(** C5 (as amended).  For every list of test logs in which no (file name,
    slice index) pair occurs twice, every logged pair has an output image,
    and the slices of one file have one shape: [test_end] passes the stacked
    volumes, one per file name, to [save_reconstructions] with the directory
    [hparams.exp_dir / hparams.exp / 'reconstructions'], does nothing else,
    and returns the empty dictionary. *)
Theorem test_end_saves_reconstructions `{Evaluate} (hp : Hparams.t)
    (s : state) (logs : list log) :
  NoDup (logged logs) →
  aggregable (heap s) output logs →
  ∃ stacked,
    test_volumes (heap s) logs stacked
    ∧ test_end hp logs s
      = (State (heap s)
           (trace s ++
            [save_reconstructions stacked
               (truediv (truediv (Hparams.exp_dir hp) (Hparams.exp hp))
                        "reconstructions")]),
         Ok []).
Proof.
  intros Hnd Ho. destruct (test_spec (heap s) logs Hnd Ho) as (stacked & Hv).
  exists stacked. split; [done|].
  destruct Hv as (outputs & Hc & _ & _ & _ & Hm & _).
  by apply (test_end_unfold hp s logs outputs).
Qed.

Lemma test_end_saves_reconstructions_witness :
  NoDup (logged example_logs)
  ∧ aggregable example_heap output example_logs
  ∧ ∃ stacked,
      test_volumes example_heap example_logs stacked
      ∧ test_end example_hparams example_logs example_state
        = (State example_heap
             [save_reconstructions stacked
                (truediv (truediv (Path "experiments") "unet")
                         "reconstructions")],
           Ok []).
Proof.
  assert (NoDup (logged example_logs)) as Hnd
    by (apply (bool_decide_unpack _); vm_compute; exact I).
  assert (aggregable example_heap output example_logs) as Ho
    by (split; apply (bool_decide_unpack _); vm_compute; exact I).
  split_and!; [done..|].
  apply (test_end_saves_reconstructions example_hparams example_state
           example_logs Hnd Ho).
Defined.

(** C5 as stated fails on the same logs: nothing is saved and nothing is
    returned. *)
Lemma test_end_duplicate_slice :
  test_end example_hparams duplicate_logs example_state
  = (example_state, Err ValueError).
Proof. vm_compute. reflexivity. Qed.

(** C6.  Every loader [_create_data_loader] builds hands its dataset to a
    [DistributedSampler] over that same dataset, and is a [DataLoader] with
    batch size [hparams.batch_size], 8 workers and pinned memory; the dataset
    is the [SliceData] of the partition.  The loader is nothing but these
    constructor arguments. *)
Theorem create_data_loader_delegates {T} (self : MRIModel T)
    (data_transform : T) (data_partition : string) (rate : option float) :
  let loader := _create_data_loader self data_transform data_partition rate in
  DataLoader.sampler loader = DistributedSampler.new (DataLoader.dataset loader)
  ∧ DataLoader.batch_size loader = Hparams.batch_size (hparams self)
  ∧ DataLoader.num_workers loader = 8%Z
  ∧ DataLoader.pin_memory loader = true
  ∧ SliceData.root (DataLoader.dataset loader)
    = truediv (Hparams.data_path (hparams self))
              (Hparams.challenge (hparams self) +:+ "_" +:+ data_partition)
  ∧ SliceData.transform (DataLoader.dataset loader) = data_transform
  ∧ SliceData.challenge (DataLoader.dataset loader)
    = Hparams.challenge (hparams self).
Proof. by repeat split. Qed.

(** C7.  Whenever its hook returns a transform, [test_dataloader] builds
    its dataset with sample rate 1.0 whatever [hparams.sample_rate] is; and
    [_create_data_loader] uses [hparams.sample_rate] whenever the rate it is
    given is falsy, that is [None] or zero, zero included when passed
    explicitly. *)
Theorem sample_rate_defaulting {T} (self : MRIModel T) (tr : T)
    (data_partition : string) (rate : option float) :
  test_data_transform self = Ok tr →
  truthy rate = false →
  (∃ loader, test_dataloader self = Ok loader
             ∧ SliceData.sample_rate (DataLoader.dataset loader) = 1%float)
  ∧ (rate = None ∨ ∃ v, rate = Some v ∧ PrimFloat.eqb v 0 = true)
  ∧ SliceData.sample_rate
      (DataLoader.dataset (_create_data_loader self tr data_partition rate))
    = Hparams.sample_rate (hparams self)
  ∧ SliceData.sample_rate
      (DataLoader.dataset
         (_create_data_loader self tr data_partition (Some 0%float)))
    = Hparams.sample_rate (hparams self).
Proof.
  intros Htr Hrate. split_and!.
  - unfold test_dataloader. rewrite Htr. by eexists.
  - destruct rate as [v|]; [|by left]. right. exists v. split; [done|].
    simpl in Hrate. by apply negb_false_iff.
  - unfold _create_data_loader, py_or. simpl. destruct rate; [|done].
    by rewrite Hrate.
  - done.
Qed.

Lemma sample_rate_defaulting_witness :
  test_data_transform example_model = Ok ()
  ∧ truthy (Some 0%float) = false
  ∧ (∃ loader, test_dataloader example_model = Ok loader
               ∧ SliceData.sample_rate (DataLoader.dataset loader) = 1%float)
  ∧ SliceData.sample_rate
      (DataLoader.dataset
         (_create_data_loader example_model () "val" (Some 0%float)))
    = 0.25%float.
Proof.
  assert (test_data_transform example_model = Ok ()) as Htr by reflexivity.
  assert (truthy (Some 0%float) = false) as Hrate by reflexivity.
  destruct (sample_rate_defaulting example_model () "val" (Some 0%float)
              Htr Hrate) as (Hone & _ & Hdefault & _).
  by split_and!.
Defined.

(** C3 (as amended).  The three [*_data_transform] hooks of the base class
    raise [NotImplementedError] themselves, and a [*_dataloader] method
    passes on whatever its hook raises.  Apart from that the module raises
    no error of its own: every exception [_evaluate], [_visualize],
    [validation_end] or [test_end] produces was raised inside a builtin or
    numpy call, as a [ValueError] or an [IndexError], never by a [raise]
    statement of the module. *)
Theorem errors_outside_hooks_are_external `{Evaluate} {T} (self : MRIModel T)
    (hp : Hparams.t) (logs : list log) (s : state) (e : exn) :
  ((_evaluate logs s).2 = Err e ∨ (_visualize logs s).2 = Err e
   ∨ (validation_end logs s).2 = Err e ∨ (test_end hp logs s).2 = Err e) →
  raised_by e = Library
  ∧ (e = ValueError ∨ e = IndexError)
  ∧ ¬ own_error e
  ∧ (∀ e', train_data_transform self = Err e' → train_dataloader self = Err e')
  ∧ (∀ e', val_data_transform self = Err e' → val_dataloader self = Err e')
  ∧ (∀ e', test_data_transform self = Err e' → test_dataloader self = Err e').
Proof.
  intros Herr.
  assert (e = ValueError ∨ e = IndexError) as Hlib.
  { destruct Herr as [He|[He|[He|He]]]; revert He.
    - apply lib_errors_evaluate.
    - apply lib_errors_visualize.
    - apply lib_errors_validation_end.
    - apply lib_errors_test_end. }
  split_and!.
  - by destruct Hlib as [-> | ->].
  - done.
  - unfold own_error. by destruct Hlib as [-> | ->].
  - intros e' He'. unfold train_dataloader. by rewrite He'.
  - intros e' He'. unfold val_dataloader. by rewrite He'.
  - intros e' He'. unfold test_dataloader. by rewrite He'.
Qed.

Lemma errors_outside_hooks_are_external_witness :
  (validation_end [] example_state).2 = Err ValueError
  ∧ raised_by ValueError = Library
  ∧ ¬ own_error ValueError.
Proof.
  assert ((validation_end [] example_state).2 = Err ValueError) as Hv
    by reflexivity.
  split; [done|].
  destruct (errors_outside_hooks_are_external example_model example_hparams []
              example_state ValueError) as (Hlib & _ & Hown & _).
  { right. right. left. exact Hv. }
  by split.
Defined.

(** C3 as stated fails on the base class: its hooks, and with them its
    loader methods, raise an exception of the module's own. *)
Lemma base_class_hooks_raise :
  train_data_transform example_base_model = Err NotImplementedError
  ∧ val_data_transform example_base_model = Err NotImplementedError
  ∧ test_data_transform example_base_model = Err NotImplementedError
  ∧ train_dataloader example_base_model = Err NotImplementedError
  ∧ own_error NotImplementedError
  ∧ ¬ (∀ (T : Type) (self : MRIModel T) (e : exn),
         train_data_transform self = Err e → ¬ own_error e).
Proof.
  split_and!; try reflexivity.
  intros Hno. by apply (Hno unit example_base_model NotImplementedError).
Qed.

(** C8.  For a non-empty list of [n] logs, [_visualize] visits the indices
    [0, step, 2 step, ...] below [n] with [step = (n + 15) // 16], which are
    at most 16; everything it adds to the logger is one of the grids
    'Target', 'Reconstruction' and 'Error' with one entry per visited index,
    hence at most 16.  For the empty list the step is 0, [range] raises, and
    [_visualize] and [validation_end] raise without logging anything. *)
Theorem visualize_at_most_16 `{Evaluate} (lg : log) (rest : list log)
    (s : state) :
  let logs := lg :: rest in
  let n := length logs in
  range 0 n ((n + 15) / 16)
  = Ok ((λ k, k * ((n + 15) / 16)) <$> seq 0 (length (sampled n)))
  ∧ sampled n = (λ k, k * ((n + 15) / 16)) <$> seq 0 (length (sampled n))
  ∧ Forall (λ i, i < n) (sampled n)
  ∧ length (sampled n) ≤ 16
  ∧ (∃ new, trace (_visualize logs s).1 = trace s ++ new
            ∧ Forall (is_grid (length (sampled n))) new
            ∧ Forall (λ ev, ∃ tag g, ev = add_image tag g
                                     ∧ length (grid_tensor g) ≤ 16) new)
  ∧ (0 + 15) / 16 = 0
  ∧ range 0 0 0 = Err ValueError
  ∧ _visualize [] s = (s, Err ValueError)
  ∧ validation_end [] s = (s, Err ValueError).
Proof.
  intros logs n.
  assert (sampled n = (λ k, k * ((n + 15) / 16)) <$> seq 0 (length (sampled n)))
    as Hs by (unfold sampled; by rewrite length_fmap, length_seq).
  split_and!; try done.
  - rewrite <-Hs. change ((n + 15) / 16) with (stride n).
    by rewrite range_sampled.
  - apply sampled_lt.
  - apply sampled_length.
  - destruct (visualize_trace logs s) as (new & Htr & Hgrids & _).
    exists new. split_and!; [done..|].
    eapply Forall_impl; [exact Hgrids|].
    intros ev (tag & g & -> & _ & Hlen). exists tag, g. split; [done|].
    rewrite Hlen. apply sampled_length.
Qed.

(** C9 (as amended).  For every non-empty list of validation logs whose
    batch arrays are non-empty, hold an image for every logged (file name,
    slice index) pair, and consist of images of one common shape with at
    least one element, and in which no such pair occurs twice:
    [validation_end] first runs [_visualize], which returns after the logger
    has received the grids 'Target', 'Reconstruction' and 'Error', in this
    order, of the normalised first images of the visited logs and of their
    absolute differences; then it runs [_evaluate] on the state [_visualize]
    left, which computes the means of the losses and of the 'nmse', 'ssim'
    and 'psnr' values of the volumes, prints them after the grids, and
    returns them; and this is what [validation_end] returns. *)
Theorem validation_end_visualizes_then_evaluates `{Evaluate} (s : state)
    (logs : list log) (sh : nat * nat) :
  logs ≠ [] → well_formed (heap s) logs sh → visualizes_then_evaluates s logs.
Proof.
  intros Hne Hwf.
  destruct (visualize_ok_grids sh logs s Hne (well_formed_first _ _ _ Hwf))
    as (ots & err & Hvis & Hlen & Hvals & Herr).
  set (h1 := foldl shift_first (heap s) (sampled_arrays logs)) in *.
  set (grids := [add_image "Target" (make_grid ots.*2 4 1);
                 add_image "Reconstruction" (make_grid ots.*1 4 1);
                 add_image "Error" (make_grid err 4 1)]) in *.
  destruct (gather_spec (State h1 (trace s ++ grids)) logs) as
    (outputs & targets & vols & _ & Hnd & Hkeys & _ & _ & _ & _ & Hvols & Hev).
  - apply Hwf.
  - eapply layout_aggregable; [by left|exact Hwf|].
    intros l. apply shift_all_layout.
  - eapply layout_aggregable; [by right|exact Hwf|].
    intros l. apply shift_all_layout.
  - exists h1, ots, err, outputs.*1, vols. cbv zeta in Hev |- *.
    rewrite mean_metrics_volumes in Hev. simpl in Hev.
    split_and!; [done..|].
    by rewrite validation_end_run, Hvis.
Qed.

Lemma validation_end_visualizes_then_evaluates_witness :
  example_logs ≠ []
  ∧ well_formed example_heap example_logs (1, 2)
  ∧ visualizes_then_evaluates example_state example_logs.
Proof.
  assert (example_logs ≠ []) as Hne by discriminate.
  assert (well_formed example_heap example_logs (1, 2)) as Hwf
    by (split; apply (bool_decide_unpack _); vm_compute; exact I).
  split_and!; [done..|].
  exact (validation_end_visualizes_then_evaluates example_state example_logs
           (1, 2) Hne Hwf).
Defined.

(** C9 as stated fails: on the empty list [validation_end] raises inside
    [_visualize], logging no grid and computing no metric; on a list in which
    a slice index repeats within a file it logs the three grids and then
    raises inside [_evaluate], returning no metric. *)
Lemma validation_end_raises_without_metrics :
  validation_end [] example_state = (example_state, Err ValueError)
  ∧ (∃ gt go ge,
       validation_end duplicate_logs example_state
       = (State (foldl shift_first example_heap (sampled_arrays duplicate_logs))
                [add_image "Target" gt; add_image "Reconstruction" go;
                 add_image "Error" ge],
          Err ValueError))
  ∧ ¬ visualizes_then_evaluates example_state []
  ∧ ¬ visualizes_then_evaluates example_state duplicate_logs.
Proof.
  assert (validation_end [] example_state = (example_state, Err ValueError))
    as Hnil by (vm_compute; reflexivity).
  assert ((validation_end duplicate_logs example_state).2 = Err ValueError)
    as Hdup by (vm_compute; reflexivity).
  split_and!.
  - done.
  - do 3 eexists. vm_compute. reflexivity.
  - intros (h1 & ots & err & names & vols & Hrest). cbv zeta in Hrest.
    destruct Hrest as (_ & _ & _ & _ & _ & _ & _ & _ & Heq).
    rewrite Heq in Hnil. discriminate Hnil.
  - intros (h1 & ots & err & names & vols & Hrest). cbv zeta in Hrest.
    destruct Hrest as (_ & _ & _ & _ & _ & _ & _ & _ & Heq).
    rewrite Heq in Hdup. discriminate Hdup.
Qed.

(** C4.  [_visualize] changes the logged arrays themselves.  When the
    arrays of the visited logs are pairwise distinct and each starts with an
    image that has an element: after [_visualize] the first image of the
    'output' array and of the 'target' array of every visited log has its
    own minimum subtracted, everything else in the heap is as before, and
    [validation_end] hands exactly this heap to [_evaluate], whose metrics
    are therefore computed from the shifted images. *)
Theorem visualize_shifts_logged_arrays `{Evaluate} (logs : list log)
    (s : state) :
  NoDup (sampled_arrays logs) →
  Forall (first_image (λ _, True) (heap s)) (sampled_arrays logs) →
  let s1 := (_visualize logs s).1 in
  heap s1 = foldl shift_first (heap s) (sampled_arrays logs)
  ∧ (∀ i lg l, i ∈ sampled (length logs) → logs !! i = Some lg →
             l = output lg ∨ l = target lg →
     ∃ a rest lo, heap s !!! l = a :: rest
                  ∧ arr_min a = Ok lo
                  ∧ heap s1 !!! l = map_image (λ x, fsub x lo) a :: rest)
  ∧ (∀ l, l ∉ sampled_arrays logs → heap s1 !!! l = heap s !!! l)
  ∧ (∀ s' d, validation_end logs s = (s', Ok d) →
             _evaluate logs s1 = (s', Ok d) ∧ heap s' = heap s1).
Proof.
  intros Hnd Hfirst s1.
  assert (heap s1 = foldl shift_first (heap s) (sampled_arrays logs)) as Hs1
    by by eapply visualize_heap.
  split_and!.
  - done.
  - intros i lg l Hi Hlg Hl.
    assert (l ∈ sampled_arrays logs) as Hin.
    { unfold sampled_arrays, arrays_at. apply list_elem_of_bind.
      exists i. rewrite Hlg. split; [|done]. set_solver. }
    rewrite Hs1, shift_all_lookup, decide_True by done.
    rewrite Forall_forall in Hfirst. specialize (Hfirst l Hin).
    unfold first_image in Hfirst.
    destruct (heap s !!! l) as [|a rest]; [done|]. destruct Hfirst as [Hlen _].
    unfold shifted. destruct (arr_min a) as [lo|] eqn:Hmin.
    + by exists a, rest, lo.
    + unfold arr_min in Hmin.
      destruct (img_data a); [simpl in Hlen; lia|done].
  - intros l Hl. by rewrite Hs1, shift_all_lookup, decide_False.
  - intros s' d Hv. rewrite validation_end_run in Hv. subst s1.
    destruct (_visualize logs s) as [s1 [[]|e]]; [|done]. simpl.
    split; [done|]. rewrite evaluate_run in Hv.
    destruct (collect (heap s1) logs ([], [], [])) as [[[? ?] ?]|]; [|done].
    destruct (mapM _ _); [|done]. by injection Hv as <- _.
Qed.

Lemma visualize_shifts_logged_arrays_witness :
  NoDup (sampled_arrays example_logs)
  ∧ Forall (first_image (λ _, True) example_heap) (sampled_arrays example_logs)
  ∧ example_heap !!! 0 = [row 1 3; row 2 4]
  ∧ heap (_visualize example_logs example_state).1 !!! 0 = [row 0 2; row 2 4].
Proof.
  assert (NoDup (sampled_arrays example_logs)) as Hnd
    by (apply (bool_decide_unpack _); vm_compute; exact I).
  assert (Forall (first_image (λ _, True) example_heap)
                 (sampled_arrays example_logs)) as Hfirst
    by (vm_compute; repeat constructor).
  split_and!; [done|done|reflexivity|].
  destruct (visualize_shifts_logged_arrays example_logs example_state
              Hnd Hfirst) as (_ & Hshift & _ & _).
  destruct (Hshift 0 first_batch 0)
    as (a & rest & lo & Ha & Hlo & ->);
    [vm_compute; set_solver|reflexivity|by left|].
  vm_compute in Ha. injection Ha as <- <-.
  vm_compute in Hlo. injection Hlo as <-. reflexivity.
Defined.

(** On the example the metrics [validation_end] returns are those of the
    shifted arrays, not those [_evaluate] computes from the arrays as
    logged. *)
Lemma validation_metrics_of_shifted_arrays :
  (validation_end example_logs example_state).2
  = Ok (with_log [("val_loss", 1%float); ("nmse", 0x1.ec8e951033d92p-4%float);
                  ("ssim", 30%float); ("psnr", 3.5%float)])
  ∧ (_evaluate example_logs example_state).2
    = Ok (with_log [("val_loss", 1%float); ("nmse", 0x1.b04820445476ap-2%float);
                    ("ssim", 33.5%float); ("psnr", 4.5%float)]).
Proof. split; vm_compute; reflexivity. Qed.

(** C2 (as amended).  For every non-empty list of validation logs whose
    batch arrays are non-empty, hold an image for every logged (file name,
    slice index) pair, and consist of images of one common shape with at
    least one element, and in which no such pair occurs twice:
    [validation_end] returns the dictionary whose 'nmse', 'ssim' and 'psnr'
    entries are [np.mean] of the metric values of the volumes, one volume
    pair per distinct file name, whose 'val_loss' entry is [np.mean] of the
    per-batch losses, and whose 'log' entry holds the same four values.  The
    volumes are those of the arrays as [_visualize] left them. *)
Theorem validation_end_returns_means `{Evaluate} (s : state)
    (logs : list log) (sh : nat * nat) :
  logs ≠ [] → well_formed (heap s) logs sh → reports s logs.
Proof.
  intros Hne Hwf.
  destruct (visualize_ok sh logs s Hne (well_formed_first _ _ _ Hwf))
    as (gt & go & ge & Hvis).
  set (s1 := State (foldl shift_first (heap s) (sampled_arrays logs))
                   (trace s ++ [add_image "Target" gt;
                                add_image "Reconstruction" go;
                                add_image "Error" ge])) in *.
  destruct (gather_spec s1 logs) as
    (outputs & targets & vols & _ & Hnd & Hkeys & _ & _ & _ & _ & Hvols & Hev).
  - apply Hwf.
  - eapply layout_aggregable; [by left|exact Hwf|].
    intros l. apply shift_all_layout.
  - eapply layout_aggregable; [by right|exact Hwf|].
    intros l. apply shift_all_layout.
  - exists s1, outputs.*1, vols. split_and!; [done..|].
    cbv zeta in Hev |- *. rewrite validation_end_run, Hvis, Hev.
    by rewrite mean_metrics_volumes.
Qed.

Lemma validation_end_returns_means_witness :
  example_logs ≠ []
  ∧ well_formed example_heap example_logs (1, 2)
  ∧ reports example_state example_logs.
Proof.
  assert (example_logs ≠ []) as Hne by discriminate.
  assert (well_formed example_heap example_logs (1, 2)) as Hwf
    by (split; apply (bool_decide_unpack _); vm_compute; exact I).
  split_and!; [done..|].
  exact (validation_end_returns_means example_state example_logs (1, 2)
           Hne Hwf).
Defined.

(** C2 as stated fails on a non-empty list in which a slice index repeats
    within a file: [validation_end] raises. *)
Lemma validation_end_duplicate_slice :
  duplicate_logs ≠ []
  ∧ (validation_end duplicate_logs example_state).2 = Err ValueError
  ∧ ¬ reports example_state duplicate_logs.
Proof.
  assert ((validation_end duplicate_logs example_state).2 = Err ValueError)
    as Hv by (vm_compute; reflexivity).
  split_and!; [discriminate|done|].
  intros (s1 & names & vols & _ & _ & _ & _ & Heq).
  cbv zeta in Heq. rewrite Heq in Hv. discriminate Hv.
Qed.

End claims.

(** * Further properties *)

(** ** [sorted] whenever it returns, and exactly when it returns *)

Section sorting_further.
Context `{Evaluate}.

#[local] Instance key_le_trans : Transitive key_le.
Proof. unfold key_le. intros x y z. lia. Qed.

Lemma tuple_lt_ok (x y : Z * image) (b : bool) :
  tuple_lt x y = Ok b → if b then key_le x y else key_le y x.
Proof.
  unfold tuple_lt, key_le. case_decide as Heq.
  - intros _. destruct b; lia.
  - intros [= <-]. case_bool_decide; lia.
Qed.

Lemma insert_sorted_ok (x : Z * image) (l r : list (Z * image)) :
  insert_sorted x l = Ok r →
  r ≡ₚ x :: l ∧ (StronglySorted key_le l → StronglySorted key_le r).
Proof.
  revert r. induction l as [|y l IH]; intros r; simpl.
  - intros [= <-]. split; [done|]. intros _. repeat constructor.
  - destruct (tuple_lt x y) as [b|] eqn:Hlt; [simpl|done].
    apply tuple_lt_ok in Hlt. destruct b.
    + intros [= <-]. split; [done|]. intros Hs.
      apply StronglySorted_cons. split; [|done].
      apply StronglySorted_cons in Hs as [Hy _]. constructor; [done|].
      eapply Forall_impl; [exact Hy|]. intros z Hz. by etrans.
    + destruct (insert_sorted x l) as [r'|]; [simpl|done].
      intros [= <-]. destruct (IH r' eq_refl) as [Hperm Hsorted].
      split; [rewrite Hperm; apply perm_swap|].
      intros [Hy Hs]%StronglySorted_cons.
      apply StronglySorted_cons. split; [|by apply Hsorted].
      rewrite Hperm. by constructor.
Qed.

Lemma fold_insert_err (l : list (Z * image)) (e : exn) :
  foldl (λ a x, s ← a; insert_sorted x s) (Err e) l = Err e.
Proof. by induction l. Qed.

Lemma sorted_from_ok (acc l r : list (Z * image)) :
  foldl (λ a x, s ← a; insert_sorted x s) (Ok acc) l = Ok r →
  StronglySorted key_le acc →
  r ≡ₚ acc ++ l ∧ StronglySorted key_le r.
Proof.
  revert acc. induction l as [|x l IH]; intros acc; simpl.
  - intros [= <-] Hs. by rewrite app_nil_r.
  - destruct (insert_sorted x acc) as [acc'|e] eqn:Hins; simpl.
    + intros Hfold Hs. destruct (insert_sorted_ok _ _ _ Hins) as [Hperm Hsorted].
      destruct (IH acc' Hfold (Hsorted Hs)) as [Hperm' Hr]. split; [|done].
      rewrite Hperm', Hperm. by rewrite <-Permutation_middle.
    + by rewrite fold_insert_err.
Qed.

Lemma sorted_ok (l r : list (Z * image)) :
  sorted l = Ok r → r ≡ₚ l ∧ StronglySorted key_le r.
Proof. intros Hs. apply (sorted_from_ok [] l r Hs). constructor. Qed.

Lemma key_lt_NoDup (l : list (Z * image)) :
  StronglySorted key_lt l → NoDup l.*1.
Proof.
  induction 1 as [|x l _ IH Hx]; [constructor|].
  rewrite fmap_cons. apply NoDup_cons. split; [|done].
  intros (y & Heq & Hy)%list_elem_of_fmap.
  rewrite Forall_forall in Hx. specialize (Hx y Hy). unfold key_lt in Hx. lia.
Qed.

Lemma insert_sorted_multi (x : Z * image) (l r : list (Z * image)) :
  multi_element x → StronglySorted key_lt l → insert_sorted x l = Ok r →
  StronglySorted key_lt r.
Proof.
  intros Hx. revert r. induction l as [|y l IH]; intros r Hs; simpl.
  - intros [= <-]. repeat constructor.
  - destruct (decide (x.1 = y.1)) as [Heq|Hne].
    { by rewrite tuple_lt_tie. }
    rewrite tuple_lt_distinct by done. simpl.
    apply StronglySorted_cons in Hs as [Hy Hs]. case_bool_decide as Hlt.
    + intros [= <-]. apply StronglySorted_cons. split.
      * constructor; [done|]. eapply Forall_impl; [exact Hy|].
        intros z Hz. unfold key_lt in *. lia.
      * by apply StronglySorted_cons.
    + destruct (insert_sorted x l) as [r'|] eqn:Hins; [simpl|done].
      intros [= <-]. apply StronglySorted_cons. split; [|by apply IH].
      destruct (insert_sorted_ok _ _ _ Hins) as [Hperm _].
      rewrite Hperm. constructor; [unfold key_lt; lia|done].
Qed.

Lemma sorted_from_multi (acc l r : list (Z * image)) :
  Forall multi_element l → StronglySorted key_lt acc →
  foldl (λ a x, s ← a; insert_sorted x s) (Ok acc) l = Ok r →
  NoDup (acc ++ l).*1.
Proof.
  intros Hl. revert acc. induction Hl as [|x l Hx _ IH]; intros acc Hs; simpl.
  - intros _. rewrite app_nil_r. by apply key_lt_NoDup.
  - destruct (insert_sorted x acc) as [acc'|e] eqn:Hins; simpl.
    + intros Hfold.
      pose proof (insert_sorted_multi _ _ _ Hx Hs Hins) as Hs'.
      destruct (insert_sorted_ok _ _ _ Hins) as [Hperm _].
      specialize (IH acc' Hs' Hfold).
      rewrite Hperm in IH. by rewrite <-Permutation_middle.
    + by rewrite fold_insert_err.
Qed.

Lemma sorted_multi (l r : list (Z * image)) :
  Forall multi_element l → sorted l = Ok r → NoDup l.*1.
Proof.
  intros Hl Hs. apply (sorted_from_multi [] l r); [done|constructor|done].
Qed.

Lemma stack_sorted_perm (es es' : list (Z * image)) :
  es ≡ₚ es' → NoDup es.*1 → stack_sorted es = stack_sorted es'.
Proof.
  intros Hperm Hnd.
  destruct (sorted_distinct es Hnd) as (r & Hr & Hpr & Hsr).
  destruct (sorted_distinct es') as (r' & Hr' & Hpr' & Hsr').
  { by rewrite <-Hperm. }
  assert (r = r') as ->; [|unfold stack_sorted; by rewrite Hr, Hr'].
  apply (StronglySorted_unique_strong key_lt); [|done..|].
  - intros x1 x2 _ _. unfold key_lt. lia.
  - by rewrite Hpr, Hpr'.
Qed.

End sorting_further.

(** ** What [_visualize] leaves alone *)

Section frames.
Context `{Evaluate}.

Lemma gentle_refl (L : list loc) h : gentle L h h.
Proof. by intros l. Qed.

Lemma gentle_trans (L : list loc) h1 h2 h3 :
  gentle L h1 h2 → gentle L h2 h3 → gentle L h1 h3.
Proof.
  intros H12 H23 l. destruct (H12 l) as (Hs & Hd & Hn).
  destruct (H23 l) as (Hs' & Hd' & Hn'). split_and!.
  - by rewrite Hs'.
  - by rewrite Hd'.
  - intros Hl. by rewrite Hn', Hn.
Qed.

Lemma gentle_mono (L L' : list loc) h h' :
  (∀ l, l ∈ L → l ∈ L') → gentle L h h' → gentle L' h h'.
Proof.
  intros Hsub Hg l. destruct (Hg l) as (Hs & Hd & Hn).
  split_and!; [done..|]. intros Hl. apply Hn. intros Hin. by apply Hl, Hsub.
Qed.

Lemma gentle_shift h (l : loc) : gentle [l] h (shift_first h l).
Proof.
  intros l'. rewrite shift_first_lookup.
  destruct (decide (l = l')) as [->|Hne].
  - destruct (h !!! l') as [|a rest]; [done|].
    split_and!; [by rewrite !fmap_cons, shape_shifted|done|].
    intros []. left.
  - done.
Qed.

Lemma normalize_gentle (l : loc) (s : state) :
  gentle [l] (heap s) (heap ((getitem_view l 0 ≫= _normalize) s).1).
Proof.
  pose proof (normalize_run l s) as Hrun.
  pose proof (gentle_shift (heap s) l) as Hshift. unfold shift_first in Hshift.
  destruct (heap s !!! l) as [|a rest]; [rewrite Hrun; apply gentle_refl|].
  destruct (arr_min a); [|rewrite Hrun; apply gentle_refl].
  destruct Hrun as (hi & _ & ->). done.
Qed.

Lemma arrays_at_singleton (logs : list log) (i : nat) :
  arrays_at logs [i]
  = match logs !! i with
    | Some lg => [output lg; target lg]
    | None => []
    end.
Proof. unfold arrays_at. rewrite bind_cons. simpl. by rewrite app_nil_r. Qed.

Lemma visualize_step_gentle (logs : list log) (i : nat) (s : state) :
  gentle (arrays_at logs [i]) (heap s) (heap (visualize_step logs i s).1).
Proof.
  rewrite arrays_at_singleton. unfold visualize_step.
  rewrite M_bind_run. unfold lift.
  destruct (logs !! i) as [lg|]; [|apply gentle_refl].
  rewrite M_bind_run.
  pose proof (normalize_gentle (output lg) s) as Ho.
  destruct ((getitem_view (output lg) 0 ≫= _normalize) s) as [s1 [o|e]].
  - rewrite M_bind_run.
    pose proof (normalize_gentle (target lg) s1) as Ht.
    apply (gentle_trans _ _ (heap s1)).
    + eapply gentle_mono; [|exact Ho]. set_solver.
    + eapply gentle_mono;
        [|by destruct ((getitem_view (target lg) 0 ≫= _normalize) s1)
             as [s2 [t|e]]].
      set_solver.
  - eapply gentle_mono; [|exact Ho]. set_solver.
Qed.

Lemma visualize_steps_gentle (logs : list log) (idx : list nat) (s : state) :
  gentle (arrays_at logs idx) (heap s)
         (heap (mapM (visualize_step logs) idx s).1).
Proof.
  revert s. induction idx as [|i idx IH]; intros s; [apply gentle_refl|].
  rewrite mapM_cons_run.
  pose proof (visualize_step_gentle logs i s) as Hi.
  assert (∀ l, l ∈ arrays_at logs [i] → l ∈ arrays_at logs (i :: idx)) as H1.
  { intros l. rewrite arrays_at_singleton. unfold arrays_at.
    rewrite !bind_cons. set_solver. }
  assert (∀ l, l ∈ arrays_at logs idx → l ∈ arrays_at logs (i :: idx)) as H2.
  { intros l. unfold arrays_at. rewrite !bind_cons. set_solver. }
  destruct (visualize_step logs i s) as [s1 [y|e]];
    [|eapply gentle_mono; [exact H1|exact Hi]].
  specialize (IH s1).
  apply (gentle_trans _ _ (heap s1));
    [eapply gentle_mono; [exact H1|exact Hi]|].
  eapply gentle_mono; [exact H2|].
  by destruct (mapM (visualize_step logs) idx s1) as [s2 [ys|e]].
Qed.

Lemma visualize_heap_steps (logs : list log) (s : state) :
  heap (_visualize logs s).1 = heap s
  ∨ heap (_visualize logs s).1
    = heap (mapM (visualize_step logs) (sampled (length logs)) s).1.
Proof.
  rewrite visualize_run, range_sampled.
  destruct (decide (length logs = 0)); [by left|]. right.
  destruct (mapM (visualize_step logs) (sampled (length logs)) s)
    as [s1 [ots|e]]; [|done].
  destruct (np_stack ots.*1); [|done].
  destruct (np_stack ots.*2); [|done].
  cbv zeta. by destruct (np_abs_sub _ _).
Qed.

(** *** Which logs are visited *)

Lemma stride_small (n : nat) : 0 < n → n ≤ 16 → stride n = 1.
Proof.
  intros Hpos Hle. unfold stride.
  pose proof (Nat.div_mod_eq (n + 15) 16).
  pose proof (Nat.mod_upper_bound (n + 15) 16). lia.
Qed.

Lemma sampled_small (n : nat) : 0 < n → n ≤ 16 → sampled n = seq 0 n.
Proof.
  intros Hpos Hle. unfold sampled. rewrite stride_small by done.
  replace ((n + 1 - 1) / 1) with n by (rewrite Nat.div_1_r; lia).
  rewrite <-(list_fmap_id (seq 0 n)) at 2. apply list_fmap_ext.
  intros i k _. simpl. lia.
Qed.

Lemma arrays_at_all (pre logs : list log) :
  arrays_at (pre ++ logs) (seq (length pre) (length logs)) = all_arrays logs.
Proof.
  revert pre. induction logs as [|lg logs IH]; intros pre; [done|].
  cbn [length seq]. unfold arrays_at, all_arrays in *. rewrite !bind_cons.
  rewrite list_lookup_middle by done. f_equal.
  specialize (IH (pre ++ [lg])). rewrite <-app_assoc in IH. simpl in IH.
  rewrite length_app in IH. simpl in IH.
  by replace (length pre + 1) with (S (length pre)) in IH by lia.
Qed.

Lemma sampled_sorted (n : nat) : StronglySorted lt (sampled n).
Proof.
  assert (∀ step c a, 0 < step →
            StronglySorted lt ((λ k, k * step) <$> seq a c)) as Hgen.
  { intros step c. induction c as [|c IH]; intros a Hstep; [constructor|].
    simpl. constructor; [by apply IH|].
    apply Forall_fmap, Forall_forall. intros k [Hk _]%elem_of_seq. simpl. nia. }
  unfold sampled. destruct (decide (n = 0)) as [->|Hn]; [constructor|].
  apply Hgen. by apply stride_pos.
Qed.

Lemma sorted_sublist_seq (idx : list nat) (a c : nat) :
  StronglySorted lt idx → Forall (λ i, a ≤ i < a + c) idx →
  idx `sublist_of` seq a c.
Proof.
  revert idx a. induction c as [|c IH]; intros idx a Hs Hb.
  - destruct Hb as [|i idx Hi _]; [constructor|lia].
  - destruct Hs as [|i idx Hs Hi]; [apply sublist_nil_l|].
    apply Forall_cons in Hb as [Hia Hb]. simpl.
    destruct (decide (i = a)) as [->|Hne].
    + apply sublist_skip, IH; [done|].
      rewrite Forall_forall in Hi, Hb |- *. intros j Hj.
      specialize (Hi j Hj). specialize (Hb j Hj). lia.
    + apply sublist_cons, IH; [by constructor|].
      constructor; [lia|].
      rewrite Forall_forall in Hi, Hb |- *. intros j Hj.
      specialize (Hi j Hj). specialize (Hb j Hj). lia.
Qed.

Lemma sampled_arrays_sublist (logs : list log) :
  sampled_arrays logs `sublist_of` all_arrays logs.
Proof.
  rewrite <-(arrays_at_all [] logs). unfold sampled_arrays, arrays_at. simpl.
  apply bind_sublist, sorted_sublist_seq; [apply sampled_sorted|].
  eapply Forall_impl; [apply sampled_lt|]. intros i Hi. simpl in *. lia.
Qed.

Lemma sampled_head (n : nat) : ∃ idx, sampled (S n) = 0 :: idx.
Proof.
  pose proof (sampled_nonempty (S n)) as Hne. unfold sampled in *.
  destruct ((S n + stride (S n) - 1) / stride (S n)); [by destruct Hne|].
  by eexists.
Qed.

Lemma shift_once (h : gmap loc (list image)) (ls : list loc) (l : loc) :
  NoDup ls → l ∈ ls → first_image (λ _, True) h l →
  ∃ a rest lo, h !!! l = a :: rest
               ∧ arr_min a = Ok lo
               ∧ foldl shift_first h ls !!! l
                 = map_image (λ x, fsub x lo) a :: rest.
Proof.
  intros Hnd Hin Hfirst. rewrite shift_all_lookup, decide_True by done.
  unfold first_image in Hfirst.
  destruct (h !!! l) as [|a rest]; [done|]. destruct Hfirst as [Hlen _].
  unfold shifted. destruct (arr_min a) as [lo|] eqn:Hmin.
  - by exists a, rest, lo.
  - unfold arr_min in Hmin. destruct (img_data a); [simpl in Hlen; lia|done].
Qed.

End frames.

(** ** What a returned result tells about the logs *)

Section inversion.
Context `{Evaluate}.

Lemma getitem_ok (arr : list image) (i : nat) (a : image) :
  getitem arr i = Ok a → i < length arr.
Proof.
  unfold getitem. destruct (arr !! i) eqn:Hi; [|done].
  intros _. by eapply lookup_lt_Some.
Qed.

Lemma collect_test_batch_inv h (lg : log) items i outs r :
  collect_test_batch h lg i items outs = Ok r →
  length items = 0 ∨ i + length items ≤ length (h !!! output lg).
Proof.
  revert i outs. induction items as [|[name sl] items IH]; intros i outs;
    [by left|].
  simpl. destruct (getitem (h !!! output lg) i) as [a|] eqn:Ha; [simpl|done].
  apply getitem_ok in Ha. intros [Hz|Hle]%IH; right; lia.
Qed.

Lemma collect_test_inv h (logs : list log) outs r :
  collect_test h logs outs = Ok r → in_bounds h output logs.
Proof.
  revert outs. induction logs as [|lg logs IH]; intros outs; [constructor|].
  simpl.
  destruct (collect_test_batch h lg 0 (zip (fname lg) (slice lg)) outs)
    as [outs'|] eqn:Hb; [simpl|done].
  intros Hrest. constructor; [|by eapply IH].
  apply collect_test_batch_inv in Hb. lia.
Qed.

Lemma collect_batch_inv h (lg : log) items i acc r :
  collect_batch h lg i items acc = Ok r →
  length items = 0
  ∨ (i + length items ≤ length (h !!! output lg)
     ∧ i + length items ≤ length (h !!! target lg)).
Proof.
  revert i acc. induction items as [|[name sl] items IH]; intros i acc;
    [by left|].
  simpl. destruct (getitem (h !!! output lg) i) as [a|] eqn:Ha; [simpl|done].
  destruct (getitem (h !!! target lg) i) as [b|] eqn:Hb; [simpl|done].
  apply getitem_ok in Ha, Hb. intros [Hz|Hle]%IH; right; lia.
Qed.

Lemma collect_inv h (logs : list log) acc r :
  collect h logs acc = Ok r →
  in_bounds h output logs ∧ in_bounds h target logs.
Proof.
  revert acc. induction logs as [|lg logs IH]; intros [[losses outs] tgts];
    [by split; constructor|].
  simpl.
  destruct (collect_batch h lg 0 (zip (fname lg) (slice lg)) (outs, tgts))
    as [[outs' tgts']|] eqn:Hb; [simpl|done].
  intros [Ho Ht]%IH. apply collect_batch_inv in Hb.
  split; constructor; try done; lia.
Qed.

Lemma mapM_result_inv {A B} (f : A → result B) (l : list A) (k : list B) :
  mapM f l = Ok k → Forall2 (λ x y, f x = Ok y) l k.
Proof.
  revert k. induction l as [|x l IH]; intros k; simpl.
  - intros [= <-]. constructor.
  - destruct (f x) as [y|] eqn:Hy; [simpl|done].
    destruct (mapM f l) as [k'|]; [simpl|done].
    intros [= <-]. constructor; [done|by apply IH].
Qed.

Lemma stack_sorted_ok_inv (es : list (Z * image)) (v : list image) :
  stack_sorted es = Ok v →
  ∃ r, r ≡ₚ es ∧ StronglySorted key_le r ∧ v = r.*2.
Proof.
  unfold stack_sorted. destruct (sorted es) as [r|] eqn:Hr; [simpl|done].
  intros [-> _]%np_stack_ok. exists r.
  destruct (sorted_ok _ _ Hr). by split_and!.
Qed.

Lemma test_end_run (hp : Hparams.t) (logs : list log) (s : state) :
  test_end hp logs s
  = match collect_test (heap s) logs [] with
    | Err e => (s, Err e)
    | Ok outputs =>
        match mapM (λ name, v ← stack_sorted (dd_get outputs name);
                            mret (name, v)) outputs.*1 with
        | Err e => (s, Err e)
        | Ok stacked =>
            (State (heap s)
               (trace s ++ [save_reconstructions stacked
                              (reconstructions_dir hp)]),
             Ok [])
        end
    end.
Proof.
  unfold test_end. rewrite M_bind_run. unfold get_heap at 1.
  rewrite M_bind_run. unfold lift at 1.
  destruct (collect_test (heap s) logs []) as [outputs|e]; [|done].
  rewrite M_bind_run. unfold lift at 1.
  by destruct (mapM _ outputs.*1) as [stacked|e].
Qed.

Lemma evaluate_cases (logs : list log) (s : state) :
  match _evaluate logs s with
  | (s', Ok d) =>
      ∃ m, s' = State (heap s) (trace s ++ [print m]) ∧ d = with_log m
  | (s', Err e) => s' = s
  end.
Proof.
  rewrite evaluate_run.
  destruct (collect (heap s) logs ([], [], []))
    as [[[losses outputs] targets]|e]; [|done].
  destruct (mapM (file_metrics outputs targets) outputs.*1) as [ms|e];
    [|done].
  by eexists.
Qed.

End inversion.

Section further.

(** X1.  For a non-empty list of entries whose images have one shape and
    more than one element each, [np.stack([a for _, a in sorted(entries)])]
    returns exactly when the slice indices are pairwise distinct. *)
Theorem stack_sorted_returns_iff_distinct `{Evaluate}
    (es : list (Z * image)) (sh : nat * nat) :
  0 < length es →
  Forall (λ e, shape e.2 = sh) es →
  Forall multi_element es →
  ((∃ v, stack_sorted es = Ok v) ↔ NoDup es.*1).
Proof.
  intros Hlen Hsh Hmulti. split.
  - intros [v Hv]. unfold stack_sorted in Hv.
    destruct (sorted es) as [r|] eqn:Hr; [|done]. by eapply sorted_multi.
  - intros Hnd. destruct (stack_sorted_ok es) as (r & _ & _ & Hr); [|done| |].
    + intros ->. simpl in Hlen. lia.
    + intros a b (e1 & -> & He1)%list_elem_of_fmap
                 (e2 & -> & He2)%list_elem_of_fmap.
      rewrite Forall_forall in Hsh. by rewrite (Hsh e1), (Hsh e2).
    + by eexists.
Qed.

Lemma stack_sorted_returns_iff_distinct_witness :
  0 < length example_entries
  ∧ Forall (λ e, shape e.2 = (1, 2)) example_entries
  ∧ Forall multi_element example_entries
  ∧ NoDup example_entries.*1
  ∧ ∃ v, stack_sorted example_entries = Ok v.
Proof.
  assert (0 < length example_entries) as Hlen by (simpl; lia).
  assert (Forall (λ e, shape e.2 = (1, 2)) example_entries) as Hsh
    by (apply (bool_decide_unpack _); vm_compute; exact I).
  assert (Forall multi_element example_entries) as Hmulti
    by (repeat (constructor; [unfold multi_element; simpl; lia|]);
        constructor).
  assert (NoDup example_entries.*1) as Hnd
    by (apply (bool_decide_unpack _); vm_compute; exact I).
  split_and!; [done..|].
  by apply (stack_sorted_returns_iff_distinct example_entries (1, 2)).
Defined.

(** X2.  Whenever [np.stack([a for _, a in sorted(entries)])] returns, the
    volume holds the images of all entries, each once, in non-decreasing
    slice order. *)
Theorem stack_sorted_is_ordered `{Evaluate} (es : list (Z * image))
    (v : list image) :
  stack_sorted es = Ok v →
  ∃ r, r ≡ₚ es ∧ StronglySorted key_le r ∧ v = r.*2 ∧ length v = length es.
Proof.
  intros (r & Hperm & Hs & ->)%stack_sorted_ok_inv.
  exists r. split_and!; [done..|]. by rewrite length_fmap, Hperm.
Qed.

Lemma stack_sorted_is_ordered_witness :
  stack_sorted example_entries = Ok [row 2 4; row 1 3; row 3 5]
  ∧ ∃ r, r ≡ₚ example_entries ∧ StronglySorted key_le r
         ∧ [row 2 4; row 1 3; row 3 5] = r.*2.
Proof.
  assert (stack_sorted example_entries = Ok [row 2 4; row 1 3; row 3 5])
    as Hv by (vm_compute; reflexivity).
  split; [done|].
  destruct (stack_sorted_is_ordered example_entries _ Hv)
    as (r & Hperm & Hs & Hr & _).
  by exists r.
Defined.

(** X3.  [_evaluate] never changes an array.  If it raises, nothing was
    printed.  If it returns, it printed the metrics once, 'val_loss' is the
    mean of the losses of all logs, each of the other three means is taken
    over one value per distinct file name, and the returned dictionary has
    the keys log, val_loss, nmse, ssim, psnr. *)
Theorem evaluate_outcome `{Evaluate} (logs : list log) (s : state) :
  match _evaluate logs s with
  | (s', Ok d) =>
      heap s' = heap s
      ∧ ∃ ms, length ms = length (keys_extend [] (logged logs).*1)
              ∧ trace s'
                = trace s ++ [print (mean_metrics (val_loss <$> logs) ms)]
              ∧ d = with_log (mean_metrics (val_loss <$> logs) ms)
              ∧ d.*1 = ["log"; "val_loss"; "nmse"; "ssim"; "psnr"]
  | (s', Err e) => s' = s
  end.
Proof.
  rewrite evaluate_run.
  destruct (collect (heap s) logs ([], [], []))
    as [[[losses outputs] targets]|e] eqn:Hc; [|done].
  destruct (mapM (file_metrics outputs targets) outputs.*1) as [ms|e] eqn:Hm;
    [|done].
  split; [done|]. exists ms.
  destruct (collect_inv _ _ _ _ Hc) as [Ho Ht].
  pose proof (eq_trans (eq_sym Hc) (collect_ok (heap s) logs [] [] [] Ho Ht))
    as Heq.
  injection Heq as -> -> ->.
  apply mapM_result_length in Hm. rewrite gathered_keys in Hm by done.
  by split_and!.
Qed.

(** X4.  [test_end] never changes an array and never saves partially:
    either it raises and nothing was saved, or it made exactly one
    [save_reconstructions] call, with the directory
    [exp_dir / exp / 'reconstructions'], and returns the empty dictionary. *)
Theorem test_end_outcome `{Evaluate} (hp : Hparams.t) (logs : list log)
    (s : state) :
  match test_end hp logs s with
  | (s', Ok d) =>
      d = [] ∧ heap s' = heap s
      ∧ ∃ stacked,
          trace s'
          = trace s ++
            [save_reconstructions stacked
               (truediv (truediv (Hparams.exp_dir hp) (Hparams.exp hp))
                        "reconstructions")]
  | (s', Err e) => s' = s
  end.
Proof.
  rewrite test_end_run.
  destruct (collect_test (heap s) logs []) as [outputs|e]; [|done].
  destruct (mapM _ outputs.*1) as [stacked|e]; [|done].
  split_and!; [done..|]. by exists stacked.
Qed.

(** X5.  Whenever [test_end] returns, whatever the logs: the dictionary it
    saved has one entry per distinct file name, in order of first
    appearance, and the volume of a file holds the output images logged for
    it, as many as the logs name the file, in non-decreasing slice order. *)
Theorem test_end_saved_volumes `{Evaluate} (hp : Hparams.t) (logs : list log)
    (s s' : state) (d : list (string * value)) :
  test_end hp logs s = (s', Ok d) →
  ∃ stacked,
    trace s' = trace s ++ [save_reconstructions stacked (reconstructions_dir hp)]
    ∧ stacked.*1 = keys_extend [] (logged logs).*1
    ∧ NoDup stacked.*1
    ∧ Forall (λ nv, ∃ r, r ≡ₚ file_entries (heap s) output logs nv.1
                         ∧ StronglySorted key_le r
                         ∧ nv.2 = r.*2
                         ∧ length nv.2
                           = length (filter (λ p, p.1 = nv.1) (logged logs)))
             stacked.
Proof.
  rewrite test_end_run.
  destruct (collect_test (heap s) logs []) as [outputs|e] eqn:Hc; [|done].
  destruct (mapM _ outputs.*1) as [stacked|e] eqn:Hm; [|done].
  intros [= <- _]. exists stacked. split; [done|].
  pose proof (collect_test_inv _ _ _ _ Hc) as Hb.
  pose proof (eq_trans (eq_sym Hc) (collect_test_ok _ _ [] Hb)) as Heq.
  injection Heq as ->.
  apply mapM_result_inv in Hm. rewrite gathered_keys in Hm by done.
  assert (stacked.*1 = keys_extend [] (logged logs).*1
          ∧ Forall (λ nv, ∃ v, stack_sorted
                                 (file_entries (heap s) output logs nv.1) = Ok v
                               ∧ nv.2 = v) stacked) as [Hkeys Hall].
  { revert Hm. generalize (keys_extend [] (logged logs).*1).
    intros names Hm.
    induction Hm as [|name nv names stacked Hnv _ [IH1 IH2]]; [done|].
    rewrite gathered_get in Hnv.
    destruct (stack_sorted (file_entries (heap s) output logs name)) as [v|]
      eqn:Hv; [|done].
    injection Hnv as <-. rewrite !fmap_cons. simpl. split; [by rewrite IH1|].
    constructor; [by exists v|done]. }
  split_and!; [done| |].
  - rewrite Hkeys. by apply keys_extend_NoDup, NoDup_nil.
  - eapply Forall_impl; [exact Hall|]. intros nv (v & Hv & Heq).
    destruct (stack_sorted_ok_inv _ _ Hv) as (r & Hperm & Hs & ->).
    exists r. split_and!; [done..|].
    rewrite Heq, length_fmap, Hperm.
    rewrite <-(length_fmap fst), file_entries_slices by done.
    by rewrite length_fmap.
Qed.

Lemma test_end_saved_volumes_witness :
  ∃ s' d stacked,
    test_end example_hparams example_logs example_state = (s', Ok d)
    ∧ trace s' = [save_reconstructions stacked
                    (reconstructions_dir example_hparams)]
    ∧ stacked.*1 = ["a"; "b"].
Proof.
  destruct (test_end example_hparams example_logs example_state)
    as [s' [d|e]] eqn:Ht.
  - destruct (test_end_saved_volumes example_hparams example_logs
                example_state s' d Ht) as (stacked & Htr & Hkeys & _).
    exists s', d, stacked. split_and!; [done..|].
    rewrite Hkeys. reflexivity.
  - vm_compute in Ht. discriminate Ht.
Defined.

(** X6.  Whatever the logs and whether or not it raises, [_visualize]
    changes at most the first image of the 'output' and 'target' arrays of
    the logs it visits: every array keeps its number of images and their
    shapes, all images after the first are untouched, and an array of a log
    that is not visited is untouched altogether.  [validation_end] leaves
    the heap exactly as [_visualize] does. *)
Theorem visualize_changes_first_images_only `{Evaluate} (logs : list log)
    (s : state) (l : loc) :
  let h' := heap (_visualize logs s).1 in
  shape <$> (h' !!! l) = shape <$> (heap s !!! l)
  ∧ drop 1 (h' !!! l) = drop 1 (heap s !!! l)
  ∧ (l ∈ sampled_arrays logs ∨ h' !!! l = heap s !!! l)
  ∧ heap (validation_end logs s).1 = h'.
Proof.
  intros h'.
  assert (gentle (sampled_arrays logs) (heap s) h') as Hg.
  { subst h'. destruct (visualize_heap_steps logs s) as [-> | ->].
    - apply gentle_refl.
    - apply visualize_steps_gentle. }
  destruct (Hg l) as (Hshape & Hdrop & Hother). split_and!; [done..| |].
  - destruct (decide (l ∈ sampled_arrays logs)); [by left|right; auto].
  - subst h'. rewrite validation_end_run.
    destruct (_visualize logs s) as [s1 [[]|e]]; [|done].
    pose proof (evaluate_cases logs s1) as Hev.
    destruct (_evaluate logs s1) as [s2 [d|e]]; [|by subst].
    by destruct Hev as (m & -> & _).
Qed.

(** X7.  With at most 16 logs the stride is 1 and [_visualize] visits every
    log: each grid it adds to the logger holds one image per log, and when
    every logged array starts with an image that has an element, the heap it
    leaves has the first image of the 'output' and 'target' arrays of all
    logs shifted; for pairwise distinct arrays each of them by its own
    minimum, exactly once. *)
Theorem visualize_visits_every_log `{Evaluate} (logs : list log) (s : state) :
  0 < length logs → length logs ≤ 16 →
  let s1 := (_visualize logs s).1 in
  (length logs + 15) / 16 = 1
  ∧ range 0 (length logs) ((length logs + 15) / 16)
    = Ok (seq 0 (length logs))
  ∧ sampled_arrays logs = all_arrays logs
  ∧ (∃ new, trace s1 = trace s ++ new ∧ Forall (is_grid (length logs)) new)
  ∧ (Forall (first_image (λ _, True) (heap s)) (all_arrays logs) →
     heap s1 = foldl shift_first (heap s) (all_arrays logs)
     ∧ (NoDup (all_arrays logs) →
        ∀ lg l, lg ∈ logs → l = output lg ∨ l = target lg →
        ∃ a rest lo, heap s !!! l = a :: rest
                     ∧ arr_min a = Ok lo
                     ∧ heap s1 !!! l = map_image (λ x, fsub x lo) a :: rest)).
Proof.
  intros Hpos Hle s1. pose proof (stride_small _ Hpos Hle) as Hstride.
  pose proof (sampled_small _ Hpos Hle) as Hsampled.
  assert (sampled_arrays logs = all_arrays logs) as Harr.
  { unfold sampled_arrays. rewrite Hsampled. apply (arrays_at_all [] logs). }
  split_and!.
  - exact Hstride.
  - change ((length logs + 15) / 16) with (stride (length logs)).
    rewrite range_sampled, decide_False by lia. by rewrite Hsampled.
  - exact Harr.
  - destruct (visualize_trace logs s) as (new & Htr & Hgrids & _).
    exists new. split; [done|].
    by rewrite Hsampled, length_seq in Hgrids.
  - intros Hfirst.
    assert (heap s1 = foldl shift_first (heap s) (all_arrays logs)) as Hs1.
    { rewrite <-Harr. eapply visualize_heap. by rewrite Harr. }
    split; [done|]. intros Hnd lg l Hlg Hl. rewrite Hs1.
    assert (l ∈ all_arrays logs) as Hin.
    { unfold all_arrays. apply list_elem_of_bind. exists lg.
      split; [|done]. set_solver. }
    apply shift_once; [done..|].
    rewrite Forall_forall in Hfirst. by apply Hfirst.
Qed.

Lemma visualize_visits_every_log_witness :
  0 < length example_logs ∧ length example_logs ≤ 16
  ∧ sampled_arrays example_logs = [0; 1; 2; 3]
  ∧ heap (_visualize example_logs example_state).1 !!! 2
    = [row 0 1; row 3 5].
Proof.
  assert (0 < length example_logs) as Hpos by (simpl; lia).
  assert (length example_logs ≤ 16) as Hle by (simpl; lia).
  split_and!; [done..| |].
  - destruct (visualize_visits_every_log example_logs example_state Hpos Hle)
      as (_ & _ & -> & _).
    reflexivity.
  - destruct (visualize_visits_every_log example_logs example_state Hpos Hle)
      as (_ & _ & _ & _ & Hheap).
    destruct Hheap as [-> _]; [vm_compute; repeat constructor|].
    vm_compute. reflexivity.
Defined.

(** X8.  The indices [_visualize] visits are strictly increasing and start
    at 0, so the first log is always shown and no log is visited twice: when
    the logged arrays are pairwise distinct, so are the arrays [_visualize]
    normalises, and if each of these starts with an image that has an
    element, the first image of the 'output' and of the 'target' array of the
    first log is shifted by its own minimum, exactly once. *)
Theorem visited_indices_increase `{Evaluate} (lg0 : log) (rest : list log)
    (s : state) :
  let logs := lg0 :: rest in
  let s1 := (_visualize logs s).1 in
  (∃ idx, range 0 (length logs) ((length logs + 15) / 16) = Ok (0 :: idx)
          ∧ StronglySorted lt (0 :: idx)
          ∧ NoDup (0 :: idx)
          ∧ sampled_arrays logs
            = output lg0 :: target lg0 :: arrays_at logs idx)
  ∧ (NoDup (all_arrays logs) →
     NoDup (sampled_arrays logs)
     ∧ (Forall (first_image (λ _, True) (heap s)) (sampled_arrays logs) →
        heap s1 = foldl shift_first (heap s) (sampled_arrays logs)
        ∧ ∀ l, l = output lg0 ∨ l = target lg0 →
          ∃ a rest' lo, heap s !!! l = a :: rest'
                        ∧ arr_min a = Ok lo
                        ∧ heap s1 !!! l
                          = map_image (λ x, fsub x lo) a :: rest')).
Proof.
  intros logs s1. pose proof (sampled_sorted (length logs)) as Hs.
  destruct (sampled_head (length rest)) as (idx & Hidx).
  change (S (length rest)) with (length logs) in Hidx.
  assert (sampled_arrays logs = output lg0 :: target lg0 :: arrays_at logs idx)
    as Harr by (unfold sampled_arrays; by rewrite Hidx).
  split.
  - exists idx. rewrite <-Hidx. split_and!; [|done| |exact Harr].
    + change ((length logs + 15) / 16) with (stride (length logs)).
      by rewrite range_sampled.
    + clear -Hs. induction Hs as [|i l _ IH Hi]; [constructor|].
      apply NoDup_cons. split; [|done]. intros Hin.
      rewrite Forall_forall in Hi. specialize (Hi i Hin). lia.
  - intros Hall.
    assert (NoDup (sampled_arrays logs)) as Hnd
      by (eapply sublist_NoDup; [exact Hall|apply sampled_arrays_sublist]).
    split; [done|]. intros Hfirst.
    assert (heap s1 = foldl shift_first (heap s) (sampled_arrays logs)) as Hs1
      by by eapply visualize_heap.
    split; [done|]. intros l Hl. rewrite Hs1.
    assert (l ∈ sampled_arrays logs) as Hin by (rewrite Harr; set_solver).
    apply shift_once; [done..|].
    rewrite Forall_forall in Hfirst. by apply Hfirst.
Qed.

Lemma visited_indices_increase_witness :
  NoDup (all_arrays example_logs)
  ∧ Forall (first_image (λ _, True) example_heap) (sampled_arrays example_logs)
  ∧ example_heap !!! 1 = [row 1 2; row 5 6]
  ∧ heap (_visualize example_logs example_state).1 !!! 1 = [row 0 1; row 5 6].
Proof.
  assert (NoDup (all_arrays example_logs)) as Hnd
    by (apply (bool_decide_unpack _); vm_compute; exact I).
  assert (Forall (first_image (λ _, True) example_heap)
                 (sampled_arrays example_logs)) as Hfirst
    by (vm_compute; repeat constructor).
  split_and!; [done|done|reflexivity|].
  destruct (visited_indices_increase first_batch [second_batch] example_state)
    as (_ & Hshift).
  destruct (Hshift Hnd) as (_ & Hheap).
  destruct (Hheap Hfirst) as (_ & Hfirst_log).
  unfold example_logs.
  destruct (Hfirst_log 1) as (a & rest & lo & Ha & Hlo & ->); [by right|].
  vm_compute in Ha. injection Ha as <- <-.
  vm_compute in Hlo. injection Hlo as <-. reflexivity.
Defined.

(** X9.  Whatever rate [_create_data_loader] is given, the dataset it
    builds has a non-zero sample rate whenever [hparams.sample_rate] is
    non-zero: a rate of 0 cannot be requested through the argument. *)
Theorem sample_rate_stays_nonzero {T} (self : MRIModel T) (tr : T)
    (data_partition : string) (rate : option float) :
  truthy (Some (Hparams.sample_rate (hparams self))) = true →
  truthy (Some (SliceData.sample_rate
                  (DataLoader.dataset
                     (_create_data_loader self tr data_partition rate))))
  = true.
Proof.
  intros Hhp. unfold _create_data_loader, py_or. cbn [SliceData.sample_rate
    DataLoader.dataset]. destruct rate as [v|]; [|done].
  destruct (truthy (Some v)) eqn:Hv; done.
Qed.

Lemma sample_rate_stays_nonzero_witness :
  truthy (Some (Hparams.sample_rate (hparams example_model))) = true
  ∧ truthy (Some (SliceData.sample_rate
                    (DataLoader.dataset
                       (_create_data_loader example_model () "train"
                          (Some 0%float))))) = true.
Proof.
  assert (truthy (Some (Hparams.sample_rate (hparams example_model))) = true)
    as Hhp by reflexivity.
  split; [done|].
  exact (sample_rate_stays_nonzero example_model () "train" (Some 0%float) Hhp).
Defined.

(** X10.  On an empty list neither [_evaluate] nor [test_end] raises:
    [_evaluate] prints and returns [np.mean] of four empty lists, and
    [test_end] saves an empty dictionary. *)
Theorem empty_logs_do_not_raise `{Evaluate} (hp : Hparams.t) (s : state) :
  let nothing := np_mean [] in
  let metrics := [("val_loss", nothing); ("nmse", nothing);
                  ("ssim", nothing); ("psnr", nothing)] in
  _evaluate [] s
  = (State (heap s) (trace s ++ [print metrics]), Ok (with_log metrics))
  ∧ test_end hp [] s
    = (State (heap s)
         (trace s ++ [save_reconstructions [] (reconstructions_dir hp)]),
       Ok []).
Proof. split; [by rewrite evaluate_run|by rewrite test_end_run]. Qed.

(** X11.  What [validation_end] has sent to the logger and printed, in
    every outcome: the three grids and then the metrics when it returns;
    when it raises, nothing, or the grids 'Target' and 'Reconstruction', or
    all three grids, and never the metrics. *)
Theorem validation_end_trace `{Evaluate} (logs : list log) (s : state) :
  ∃ new,
    trace (validation_end logs s).1 = trace s ++ new
    ∧ match (validation_end logs s).2 with
      | Ok d =>
          ∃ gt go ge m,
            new = [add_image "Target" gt; add_image "Reconstruction" go;
                   add_image "Error" ge; print m]
            ∧ d = with_log m
      | Err _ =>
          new = []
          ∨ (∃ gt go, new = [add_image "Target" gt;
                              add_image "Reconstruction" go])
          ∨ (∃ gt go ge, new = [add_image "Target" gt;
                                 add_image "Reconstruction" go;
                                 add_image "Error" ge])
      end.
Proof.
  rewrite validation_end_run, visualize_run.
  destruct (range 0 (length logs) (stride (length logs))) as [idx|e].
  2: { exists []. rewrite app_nil_r. by split; [|left]. }
  pose proof (mapM_trace (visualize_step logs) idx s
                (visualize_step_trace logs)) as Htr.
  destruct (mapM (visualize_step logs) idx s) as [s1 [ots|e]]; simpl in Htr.
  2: { exists []. rewrite app_nil_r. by split; [|left]. }
  destruct (np_stack ots.*1) as [outputs|e].
  2: { exists []. rewrite app_nil_r. by split; [|left]. }
  destruct (np_stack ots.*2) as [targets|e].
  2: { exists []. rewrite app_nil_r. by split; [|left]. }
  cbv zeta. destruct (np_abs_sub targets outputs) as [err|e].
  2: { eexists [_; _]. simpl. rewrite Htr. split; [done|]. right. left.
       by eexists _, _. }
  match goal with
  | |- context [_evaluate logs ?st] =>
      pose proof (evaluate_cases logs st) as Hev;
      destruct (_evaluate logs st) as [s2 [d|e]]
  end.
  - destruct Hev as (m & -> & Hd). eexists [_; _; _; _].
    simpl in *. rewrite Htr, <-!app_assoc. split; [done|].
    by eexists _, _, _, _.
  - subst s2. eexists [_; _; _]. simpl. rewrite Htr, <-!app_assoc.
    split; [done|]. right. right. by eexists _, _, _.
Qed.

(** X12.  The volume of a file does not depend on the order of the logs:
    when no (file name, slice index) pair occurs twice and the logs can be
    gathered, gathering them in any other order succeeds too, names the same
    files, and [np.stack([a for _, a in sorted(...)])] gives the same
    outcome for every file. *)
Theorem volumes_independent_of_log_order `{Evaluate}
    (h : gmap loc (list image)) (logs logs' : list log) (outs : ddict) :
  logs ≡ₚ logs' → NoDup (logged logs) → collect_test h logs [] = Ok outs →
  ∃ outs', collect_test h logs' [] = Ok outs'
           ∧ outs'.*1 ≡ₚ outs.*1
           ∧ ∀ name, stack_sorted (dd_get outs' name)
                     = stack_sorted (dd_get outs name).
Proof.
  intros Hperm Hnd Hc. pose proof (collect_test_inv _ _ _ _ Hc) as Hb.
  pose proof (eq_trans (eq_sym Hc) (collect_test_ok _ _ [] Hb)) as Heq.
  injection Heq as ->.
  assert (in_bounds h output logs') as Hb'
    by (unfold in_bounds in *; by rewrite <-Hperm).
  exists (dd_extend [] (entries h output logs')). split_and!.
  - by apply collect_test_ok.
  - rewrite !gathered_keys by done. apply NoDup_Permutation.
    + by apply keys_extend_NoDup, NoDup_nil.
    + by apply keys_extend_NoDup, NoDup_nil.
    + intros name. rewrite !keys_extend_elem_of. unfold logged.
      by rewrite Hperm.
  - intros name. rewrite !gathered_get. apply stack_sorted_perm.
    + unfold file_entries, entries. by rewrite Hperm.
    + rewrite file_entries_slices by done. apply filter_snd_NoDup.
      unfold logged in *. by rewrite <-Hperm.
Qed.

Lemma volumes_independent_of_log_order_witness :
  example_logs ≡ₚ swapped_logs
  ∧ NoDup (logged example_logs)
  ∧ ∃ outs outs',
      collect_test example_heap example_logs [] = Ok outs
      ∧ collect_test example_heap swapped_logs [] = Ok outs'
      ∧ stack_sorted (dd_get outs' "a") = stack_sorted (dd_get outs "a").
Proof.
  assert (example_logs ≡ₚ swapped_logs) as Hperm by apply perm_swap.
  assert (NoDup (logged example_logs)) as Hnd
    by (apply (bool_decide_unpack _); vm_compute; exact I).
  split_and!; [done..|].
  destruct (collect_test example_heap example_logs []) as [outs|e] eqn:Hc.
  - destruct (volumes_independent_of_log_order example_heap example_logs
                swapped_logs outs Hperm Hnd Hc) as (outs' & Hc' & _ & Hsame).
    by exists outs, outs'.
  - vm_compute in Hc. discriminate Hc.
Defined.

End further.
